(** * convex-swr-jotai: the stale-while-revalidate hooks of [use-query-swr.ts]

    A shallow embedding of the three exported hooks ([useQuerySwr],
    [useQueriesSwr], [usePaginatedQuerySwr]), of the key deriver
    [createQueryKey] and of the jotai-backed cache they share, followed by
    the properties of the specification that concern them.

    Conventions of the embedding.
    - A JavaScript value is a term of [value]; an object is the list of its
      own enumerable properties in enumeration order.  Numbers are the
      integers and strings are sequences of code units below 256; floating
      point, 64-bit integers and byte arrays are left out.
    - The cache atom [Record<string, unknown>] is a [gmap string Observed];
      the default store is the [World], which also keeps the trace of the
      store writes and of the calls into the query provider.
    - The hooks of [convex/react] are the environment: the functions
      [useQuery], [useQueries] and [usePaginatedQuery] a wrapper is given
      stand for what the provider answers at the render at hand.
    - A hook call site owns the dependency of its [useEffect]; one
      evaluation ([Hook]) is a render followed by the commit of its effect,
      which React runs on mount and whenever the dependency changed under
      [Object.is].  [useMemo] and [useCallback] cache pure functions of
      their dependencies and are transparent.
    - A render that throws yields [None].
    - [log] is the empty function ([__DEBUG__] is [false]) and leaves no
      mark in the model. *)

From Stdlib Require Import ZArith NArith List Ascii String Bool Lia.
From Stdlib Require Import Permutation Sorted OrdersEx DecimalPos DecimalZ DecimalString.
From stdpp Require Import gmap strings list.

Local Open Scope Z_scope.
Set Warnings "-register-all".

(** ** JavaScript values *)

(** The values the hooks handle: query results, query arguments, the
    paginated result object and its [loadMore] function.  Numbers are the
    integer-valued ones.  [VNative] is a function owned by the query
    provider (the [loadMore] of [usePaginatedQuery]); [VSwrLoadMore key orig]
    is the closure [usePaginatedQuerySwr] builds with [React.useCallback]
    over [key] and [result.loadMore]. *)
Inductive value : Type :=
| VUndefined
| VNull
| VBool (b : bool)
| VNum (n : Z)
| VStr (s : string)
| VArr (items : list value)
| VObj (props : list (string * value))
| VNative (id : N)
| VSwrLoadMore (key : string) (orig : value).

Definition is_undefined (v : value) : bool :=
  match v with VUndefined => true | _ => false end.

Definition is_nullish (v : value) : bool :=
  match v with VUndefined | VNull => true | _ => false end.

(** [a ?? b] *)
Definition nullish_coalesce (a b : value) : value :=
  if is_nullish a then b else a.

Definition is_primitive (v : value) : bool :=
  match v with
  | VUndefined | VNull | VBool _ | VNum _ | VStr _ => true
  | _ => false
  end.

(** [===] on primitives. *)
Definition prim_eqb (a b : value) : bool :=
  match a, b with
  | VUndefined, VUndefined => true
  | VNull, VNull => true
  | VBool x, VBool y => Bool.eqb x y
  | VNum x, VNum y => Z.eqb x y
  | VStr x, VStr y => String.eqb x y
  | _, _ => false
  end.

(** [v === "..."] for a string literal. *)
Definition is_string (v : value) (s : string) : bool := prim_eqb v (VStr s).

(** A value as the provider hands it to a hook.  [ident] is the reference
    identity of the object, array or function [val]; it carries no meaning
    for a primitive. *)
Record Observed : Type := Obs { val : value; ident : N }.

(** [Object.is], the comparison React applies to effect dependencies:
    primitives by value, everything else by reference. *)
Definition Object_is (a b : Observed) : bool :=
  if is_primitive (val a) || is_primitive (val b)
  then prim_eqb (val a) (val b)
  else N.eqb (ident a) (ident b).

(** *** Own properties *)

(** Decimal digits of a natural number, as JavaScript prints an array index
    or an integer. *)
Definition digit_char (d : nat) : ascii := ascii_of_nat (48 + d).

Fixpoint uint_chars (u : Decimal.uint) : list ascii :=
  match u with
  | Decimal.Nil => []
  | Decimal.D0 u => digit_char 0 :: uint_chars u
  | Decimal.D1 u => digit_char 1 :: uint_chars u
  | Decimal.D2 u => digit_char 2 :: uint_chars u
  | Decimal.D3 u => digit_char 3 :: uint_chars u
  | Decimal.D4 u => digit_char 4 :: uint_chars u
  | Decimal.D5 u => digit_char 5 :: uint_chars u
  | Decimal.D6 u => digit_char 6 :: uint_chars u
  | Decimal.D7 u => digit_char 7 :: uint_chars u
  | Decimal.D8 u => digit_char 8 :: uint_chars u
  | Decimal.D9 u => digit_char 9 :: uint_chars u
  end.

Definition int_chars (i : Decimal.signed_int) : list ascii :=
  match i with
  | Decimal.Pos u => uint_chars u
  | Decimal.Neg u => "-"%char :: uint_chars u
  end.

Definition Z_chars (n : Z) : list ascii := int_chars (Z.to_int n).

Definition string_of_nat (n : nat) : string :=
  string_of_list_ascii (Z_chars (Z.of_nat n)).

(** The array index a property name denotes, if any: the canonical decimal
    spelling of an integer below [2^32 - 1].  Such names enumerate first,
    in ascending numeric order, whatever their insertion order. *)
Definition array_index (k : string) : option N :=
  match NilEmpty.uint_of_string k with
  | Some u =>
      let n := N.of_uint u in
      if String.eqb (string_of_list_ascii (uint_chars (N.to_uint n))) k
         && N.ltb n 4294967295
      then Some n else None
  | None => None
  end.

Section Props.
Context {A : Type}.

Fixpoint prop_lookup (k : string) (o : list (string * A)) : option A :=
  match o with
  | [] => None
  | (k', v) :: o' => if String.eqb k k' then Some v else prop_lookup k o'
  end.

Fixpoint prop_replace (k : string) (v : A) (o : list (string * A))
  : list (string * A) :=
  match o with
  | [] => []
  | (k', v') :: o' =>
      if String.eqb k k' then (k', v) :: o' else (k', v') :: prop_replace k v o'
  end.

(** Where a new array-index name [n] lands: ahead of the first property
    that is no array index or a larger one. *)
Fixpoint prop_insert_index (n : N) (k : string) (v : A)
    (o : list (string * A)) : list (string * A) :=
  match o with
  | [] => [(k, v)]
  | (k', v') :: o' =>
      match array_index k' with
      | Some m =>
          if N.ltb n m then (k, v) :: (k', v') :: o'
          else (k', v') :: prop_insert_index n k v o'
      | None => (k, v) :: (k', v') :: o'
      end
  end.

(** Defining the own property [k], as an object literal or a spread does:
    an existing property keeps its place, a new array index is put in
    numeric position, any other new name goes last. *)
Definition prop_define (k : string) (v : A) (o : list (string * A))
  : list (string * A) :=
  match prop_lookup k o with
  | Some _ => prop_replace k v o
  | None =>
      match array_index k with
      | Some n => prop_insert_index n k v o
      | None => o ++ [(k, v)]
      end
  end.

(** The assignment [o[k] = v] on an object created by [{}]: it defines
    the own property, except for the name [__proto__], which reaches the
    setter inherited from [Object.prototype] and leaves the own properties
    as they are. *)
Definition prop_set (k : string) (v : A) (o : list (string * A))
  : list (string * A) :=
  if String.eqb k "__proto__" then o else prop_define k v o.

End Props.

(** The indexed properties of an array or a string, from index [i] on. *)
Fixpoint index_from {A : Type} (i : nat) (l : list A) : list (string * A) :=
  match l with
  | [] => []
  | x :: l' => (string_of_nat i, x) :: index_from (S i) l'
  end.

(** [Object.entries(v)], also the properties copied by [{...v}]: the own
    enumerable properties of an object, the indexed elements of an array or
    a string, none for a number, boolean, function or nullish value. *)
Definition own_props (v : value) : list (string * value) :=
  match v with
  | VObj props => props
  | VArr items => index_from 0 items
  | VStr s =>
      index_from 0 (map (fun c => VStr (String c EmptyString)) (list_ascii_of_string s))
  | _ => []
  end.

(** [Object.values(v)] *)
Definition Object_values (v : value) : list value := map snd (own_props v).

(** [v.k] for the two names the hooks read, [status] and [loadMore]: a
    [TypeError] ([None]) on a nullish value, the own property of an object,
    and [undefined] elsewhere, since no array, string, number, boolean or
    function has a property of either name. *)
Definition get_prop (v : value) (k : string) : option value :=
  match v with
  | VUndefined | VNull => None
  | VObj props => Some (default VUndefined (prop_lookup k props))
  | _ => Some VUndefined
  end.

(** ** JSON text *)

(** The JSON documents the key deriver serialises. *)
Inductive json : Type :=
| JNull
| JBool (b : bool)
| JNum (n : Z)
| JStr (s : string)
| JArr (items : list json)
| JObj (props : list (string * json)).

Definition hex_char (n : N) : ascii :=
  if N.ltb n 10 then ascii_of_N (48 + n) else ascii_of_N (87 + n).

(** What follows the backslash for a control character: the short escapes
    [\b \t \n \f \r], four lowercase hex digits otherwise. *)
Definition control_escape (n : N) : list ascii :=
  match n with
  | 8%N => ["b"%char]
  | 9%N => ["t"%char]
  | 10%N => ["n"%char]
  | 12%N => ["f"%char]
  | 13%N => ["r"%char]
  | _ => ["u"%char; "0"%char; "0"%char; hex_char (n / 16); hex_char (n mod 16)]
  end.

(** [QuoteJSONString] on one code unit. *)
Definition escape_char (c : ascii) : list ascii :=
  let n := N_of_ascii c in
  if N.eqb n 34 then ["\"%char; "034"%char]
  else if N.eqb n 92 then ["\"%char; "\"%char]
  else if N.ltb n 32 then "\"%char :: control_escape n
  else [c].

Fixpoint escape_chars (s : list ascii) : list ascii :=
  match s with
  | [] => []
  | c :: s' => escape_char c ++ escape_chars s'
  end.

Definition quote_chars (s : string) : list ascii :=
  "034"%char :: escape_chars (list_ascii_of_string s) ++ ["034"%char].

Fixpoint join_comma (parts : list (list ascii)) : list ascii :=
  match parts with
  | [] => []
  | p :: rest =>
      match rest with
      | [] => p
      | _ :: _ => p ++ ","%char :: join_comma rest
      end
  end.

(** [JSON.stringify] without indentation: properties in enumeration
    order, no white space. *)
Fixpoint JSON_chars (j : json) : list ascii :=
  match j with
  | JNull => list_ascii_of_string "null"
  | JBool true => list_ascii_of_string "true"
  | JBool false => list_ascii_of_string "false"
  | JNum n => Z_chars n
  | JStr s => quote_chars s
  | JArr items => "["%char :: join_comma (map JSON_chars items) ++ ["]"%char]
  | JObj props =>
      "{"%char
        :: join_comma
             (map (fun '(k, v) => quote_chars k ++ ":"%char :: JSON_chars v) props)
        ++ ["}"%char]
  end.

Definition JSON_stringify (j : json) : string :=
  string_of_list_ascii (JSON_chars j).

(** ** The key deriver *)

(** A query identity; [getFunctionName] resolves it to its canonical
    name. *)
Record FunctionReference : Type := { functionName : string }.

Definition getFunctionName (query : FunctionReference) : string :=
  functionName query.

(** Modelled from the spec: [validateObjectField] of [convex/values] is
    imported, not part of the hook module.  A field name is accepted when
    it has at most 1024 characters, does not start with [$] and holds only
    printable ASCII. *)
Definition validateObjectField (k : string) : bool :=
  Nat.leb (String.length k) 1024
  && negb (String.prefix "$" k)
  && forallb (fun c => N.leb 32 (N_of_ascii c) && N.ltb (N_of_ascii c) 127)
       (list_ascii_of_string k).

(** The comparator [convexToJson] sorts object entries with,
    [k1 === k2 ? 0 : k1 < k2 ? -1 : 1], inside a stable sort. *)
Section Sorting.
Context {A : Type}.

Fixpoint insert_entry (e : string * A) (l : list (string * A))
  : list (string * A) :=
  match l with
  | [] => [e]
  | e' :: l' =>
      match String_as_OT.compare (fst e) (fst e') with
      | Gt => e' :: insert_entry e l'
      | _ => e :: l
      end
  end.

Definition sort_entries (l : list (string * A)) : list (string * A) :=
  fold_right insert_entry [] l.

(** [const out = {}; for (const [k, v] of entries) out[k] = v] *)
Definition object_of_entries (l : list (string * A)) : list (string * A) :=
  fold_left (fun out e => prop_set (fst e) (snd e) out) l [].
End Sorting.

(** Modelled from the spec: [convexToJson] of [convex/values] is imported,
    not part of the hook module; it is the canonical JSON encoding of the
    arguments.  [undefined] and functions have no encoding; [null],
    booleans, numbers and strings encode as themselves; an array encodes
    element by element; an object has its entries sorted by name, the
    fields holding [undefined] dropped, the remaining names validated and
    the values encoded.  The encoding of the fields is written here before
    the sort, which looks at names only. *)
Fixpoint convexToJson (v : value) : option json :=
  match v with
  | VUndefined => None
  | VNull => Some JNull
  | VBool b => Some (JBool b)
  | VNum n => Some (JNum n)
  | VStr s => Some (JStr s)
  | VArr items =>
      option_map JArr
        ((fix encode_items (l : list value) : option (list json) :=
            match l with
            | [] => Some []
            | x :: l' =>
                match convexToJson x, encode_items l' with
                | Some j, Some js => Some (j :: js)
                | _, _ => None
                end
            end) items)
  | VObj props =>
      option_map (fun es => JObj (object_of_entries (sort_entries es)))
        ((fix encode_fields (l : list (string * value))
            : option (list (string * json)) :=
            match l with
            | [] => Some []
            | (k, x) :: l' =>
                if is_undefined x then encode_fields l'
                else if validateObjectField k then
                  match convexToJson x, encode_fields l' with
                  | Some j, Some js => Some ((k, j) :: js)
                  | _, _ => None
                  end
                else None
            end) props)
  | VNative _ => None
  | VSwrLoadMore _ _ => None
  end.

(** [createQueryKey(query, args)]; [None] when [convexToJson] throws. *)
Definition createQueryKey (query : FunctionReference) (args : value)
  : option string :=
  let queryString := getFunctionName query in
  match convexToJson args with
  | Some encoded => Some (JSON_stringify (JArr [JStr queryString; encoded]))
  | None => None
  end.

(** One entry of a [RequestForQueries]. *)
Record QueryRequest : Type := { query : FunctionReference; args : value }.

(** The [useMemo] body of [useQueriesSwr]: [queries] stands for
    [Object.entries(queries)].  The memo is keyed on the identity of
    [queries] and caches a pure function of it, so it is transparent. *)
Definition queries_newMap (queries : list (string * QueryRequest))
  : option (list (string * json)) :=
  fold_left
    (fun acc e =>
       match acc, createQueryKey (query (snd e)) (args (snd e)) with
       | Some newMap, Some k => Some (prop_set (fst e) (JStr k) newMap)
       | _, _ => None
       end)
    queries (Some []).

Definition queries_key (queries : list (string * QueryRequest)) : option string :=
  option_map (fun newMap => JSON_stringify (JObj newMap)) (queries_newMap queries).

(** ** The store and the cache atom *)

(** What leaves the hook module: a write of the cache atom, a call of a
    function of the query provider. *)
Inductive Event : Type :=
| StoreSet (c : gmap string Observed)
| NativeCall (id : N) (arg : value).

(** [store] with [cacheAtom] in it, and the trace of the effects so far.
    The atom is private to the module: only [store_set] changes it. *)
Record World : Type := { cacheAtom : gmap string Observed; trace : list Event }.

Definition initial_world : World := {| cacheAtom := ∅; trace := [] |}.

(** [store.get(cacheAtom)] *)
Definition store_get (w : World) : gmap string Observed := cacheAtom w.

(** [store.set(cacheAtom, c)] *)
Definition store_set (c : gmap string Observed) (w : World) : World :=
  {| cacheAtom := c; trace := trace w ++ [StoreSet c] |}.

Definition native_call (id : N) (arg : value) (w : World) : World :=
  {| cacheAtom := cacheAtom w; trace := trace w ++ [NativeCall id arg] |}.

(** [c[key]]: [undefined] for a missing key. *)
Definition read_cache (c : gmap string Observed) (key : string) : Observed :=
  default (Obs VUndefined 0) (c !! key).

(** [stale ?? result] *)
Definition coalesce (stale result : Observed) : Observed :=
  if is_nullish (val stale) then result else stale.

(** ** Hooks *)

(** What one evaluation of a hook call site yields: the value handed to the
    component, the dependency the effect was committed with, the world
    after the commit. *)
Record Outcome (R D : Type) : Type :=
  { returned : R; committed : option D; world : World }.
Arguments returned {R D} _.
Arguments committed {R D} _.
Arguments world {R D} _.

(** A hook call site: from the dependency of its last commit ([None] before
    mount) and the world to an outcome, or [None] when the render throws. *)
Definition Hook (R D : Type) : Type := option D -> World -> option (Outcome R D).

(** [React.useEffect(effect, [dep])]: the effect runs after the first
    render and after each render whose [dep] differs from the committed
    one. *)
Definition commit {D : Type} (same : D -> D -> bool) (prev : option D) (dep : D)
    (effect : World -> World) (w : World) : World :=
  match prev with
  | None => effect w
  | Some p => if same p dep then w else effect w
  end.

(** A hook of the provider seen from the module: it returns what the
    provider holds and touches neither the dependency nor the store. *)
Definition provided {R D : Type} (r : R) : Hook R D :=
  fun h w => Some {| returned := r; committed := h; world := w |}.

(** Feature flag of the module. *)
Definition FEATURE_FLAG_USE_QUERY_SWR : bool := true.

Section Provider.
(** The hooks of [convex/react], as the provider answers them at the
    render under consideration. *)
Variable useQuery : FunctionReference -> list value -> Observed.
Variable useQueries : list (string * QueryRequest) -> Observed.
Variable usePaginatedQuery : FunctionReference -> list value -> Observed.

(** The arrow function of [useQuerySwr]; [args] is the rest parameter. *)
Definition useQuerySwr_enabled (name : FunctionReference) (args : list value)
  : Hook Observed Observed :=
  fun h w =>
    let result := useQuery name args in
    match createQueryKey name (VArr args) with
    | None => None
    | Some key =>
        let effect := fun w' =>
          if negb (is_undefined (val result))
          then store_set (<[key := result]> (store_get w')) w'
          else w' in
        let stale := read_cache (store_get w) key in
        Some {| returned :=
                  if is_undefined (val result) then coalesce stale result
                  else result;
                committed := Some result;
                world := commit Object_is h result effect w |}
    end.

Definition useQuerySwr_with (flag : bool) (name : FunctionReference)
    (args : list value) : Hook Observed Observed :=
  if negb flag then provided (useQuery name args)
  else useQuerySwr_enabled name args.

Definition useQuerySwr := useQuerySwr_with FEATURE_FLAG_USE_QUERY_SWR.

(** [Object.values(result ?? { a: undefined }).some((v) => v === undefined)] *)
Definition batch_isLoading (result : value) : bool :=
  existsb is_undefined
    (Object_values (nullish_coalesce result (VObj [("a", VUndefined)]))).

(** The arrow function of [useQueriesSwr]. *)
Definition useQueriesSwr_enabled (queries : list (string * QueryRequest))
  : Hook Observed Observed :=
  fun h w =>
    let result := useQueries queries in
    let isLoading := batch_isLoading (val result) in
    match queries_key queries with
    | None => None
    | Some key =>
        let effect := fun w' =>
          if negb isLoading
          then store_set (<[key := result]> (store_get w')) w'
          else w' in
        let stale := read_cache (store_get w) key in
        Some {| returned := if isLoading then coalesce stale result else result;
                committed := Some result;
                world := commit Object_is h result effect w |}
    end.

Definition useQueriesSwr_with (flag : bool)
    (queries : list (string * QueryRequest)) : Hook Observed Observed :=
  if negb flag then provided (useQueries queries)
  else useQueriesSwr_enabled queries.

Definition useQueriesSwr := useQueriesSwr_with FEATURE_FLAG_USE_QUERY_SWR.

(** The arrow function of [usePaginatedQuerySwr].  The object it returns,
    [{ ...finalResult, loadMore }], is new at every render and is given
    by its value.  The effect depends on [result.status], a string. *)
Definition usePaginatedQuerySwr_enabled (name : FunctionReference)
    (args : list value) : Hook value value :=
  fun h w =>
    let result := usePaginatedQuery name args in
    match createQueryKey name (VArr args),
          get_prop (val result) "loadMore",
          get_prop (val result) "status" with
    | Some key, Some originalLoadMore, Some status =>
        let loadMore := VSwrLoadMore key originalLoadMore in
        let effect := fun w' =>
          if negb (is_string status "LoadingMore")
             && negb (is_string status "LoadingFirstPage")
          then store_set (<[key := result]> (store_get w')) w'
          else w' in
        let stale := read_cache (store_get w) key in
        let finalResult :=
          if is_string status "LoadingFirstPage" then coalesce stale result
          else result in
        Some {| returned :=
                  VObj (prop_define "loadMore" loadMore (own_props (val finalResult)));
                committed := Some status;
                world := commit prim_eqb h status effect w |}
    | _, _, _ => None
    end.

Definition usePaginatedQuerySwr_with (flag : bool) (name : FunctionReference)
    (args : list value) : Hook value value :=
  if negb flag then provided (val (usePaginatedQuery name args))
  else usePaginatedQuerySwr_enabled name args.

Definition usePaginatedQuerySwr :=
  usePaginatedQuerySwr_with FEATURE_FLAG_USE_QUERY_SWR.
End Provider.

(** Calling a function value with one argument.  A provider function leaves
    its call in the trace; the [loadMore] of [usePaginatedQuerySwr] copies
    the cache, deletes [key] from the copy, stores the copy and then calls
    the original; anything else is not callable ([None]). *)
Fixpoint call (f : value) (arg : value) (w : World) : option World :=
  match f with
  | VNative id => Some (native_call id arg w)
  | VSwrLoadMore key originalLoadMore =>
      let cache' := delete key (store_get w) in
      call originalLoadMore arg (store_set cache' w)
  | _ => None
  end.

(** ** Relations the properties are stated with *)

(** Semantic equality of argument values: the same bindings, whatever the
    order the properties of an object were inserted in, at any depth. *)
Inductive value_equiv : value -> value -> Prop :=
| equiv_same v : value_equiv v v
| equiv_array xs ys :
    Forall2 value_equiv xs ys -> value_equiv (VArr xs) (VArr ys)
| equiv_object ps rs qs :
    NoDup (map fst ps) ->
    Permutation ps rs ->
    Forall2 (fun p q => fst p = fst q /\ value_equiv (snd p) (snd q)) rs qs ->
    value_equiv (VObj ps) (VObj qs).

(** The composite key as the specification words it: the declaration
    itself serialised, each name with the identity and the encoded
    arguments of its sub-query. *)
Definition declaration_entry (e : string * QueryRequest)
  : option (string * json) :=
  option_map
    (fun encoded =>
       (fst e, JObj [("query", JStr (getFunctionName (query (snd e))));
                     ("args", encoded)]))
    (convexToJson (args (snd e))).

Definition declaration_key (queries : list (string * QueryRequest))
  : option string :=
  option_map (fun es => JSON_stringify (JObj (object_of_entries es)))
    (mapM declaration_entry queries).

(** The per-name keys of a declaration, in its enumeration order. *)
Definition per_name_keys (queries : list (string * QueryRequest))
  : list (string * option string) :=
  map (fun e => (fst e, createQueryKey (query (snd e)) (args (snd e)))) queries.

(** What the hook module can do to the world.  The call sites are the
    typed ones: [useQuerySwr] receives at most one argument after the
    query, [usePaginatedQuerySwr] the arguments and the options.  The
    dependency [h] of a call site is arbitrary, and an effect reads the
    world it runs in, not the world of its render: a step also stands for
    an effect committed after other call sites have run. *)
Inductive step : World -> World -> Prop :=
| step_query uq name args h w out :
    (length args <= 1)%nat ->
    useQuerySwr uq name args h w = Some out ->
    step w (world out)
| step_queries uqs queries h w out :
    useQueriesSwr uqs queries h w = Some out ->
    step w (world out)
| step_paginated up name a opts h w out :
    usePaginatedQuerySwr up name [a; opts] h w = Some out ->
    step w (world out)
| step_call f arg w w' :
    call f arg w = Some w' ->
    step w w'.

Inductive reachable : World -> Prop :=
| reachable_initial : reachable initial_world
| reachable_step w w' : reachable w -> step w w' -> reachable w'.

(** The effect of an evaluation fires: first commit, or a dependency that
    changed. *)
Definition effect_fires {D : Type} (same : D -> D -> bool) (prev : option D)
    (dep : D) : Prop :=
  match prev with
  | None => True
  | Some p => same p dep = false
  end.

(** ** Definitions the proofs are stated with *)

(** The two loops of [convexToJson], by name. *)
Fixpoint encode_items (l : list value) : option (list json) :=
  match l with
  | [] => Some []
  | x :: l' =>
      match convexToJson x, encode_items l' with
      | Some j, Some js => Some (j :: js)
      | _, _ => None
      end
  end.

Fixpoint encode_fields (l : list (string * value)) : option (list (string * json)) :=
  match l with
  | [] => Some []
  | (k, x) :: l' =>
      if is_undefined x then encode_fields l'
      else if validateObjectField k then
        match convexToJson x, encode_fields l' with
        | Some j, Some js => Some ((k, j) :: js)
        | _, _ => None
        end
      else None
  end.

(** The order [convexToJson] sorts entries by. *)
Definition key_lt {A : Type} (e1 e2 : string * A) : Prop :=
  String_as_OT.lt (fst e1) (fst e2).

Definition is_digit (c : ascii) : bool :=
  N.leb 48 (N_of_ascii c) && N.ltb (N_of_ascii c) 58.

(** A remainder that cannot continue a numeral. *)
Definition no_digit_ahead (r : list ascii) : Prop :=
  match r with
  | [] => True
  | c :: _ => is_digit c = false
  end.

Definition hex_value (c : ascii) : N :=
  let n := N_of_ascii c in
  if N.ltb n 58 then n - 48 else n - 87.

(** Reads one escaped code unit back from the front of a text. *)
Definition unescape_one (l : list ascii) : option (ascii * list ascii) :=
  match l with
  | [] => None
  | c :: r =>
      if Ascii.eqb c "034" then None
      else if Ascii.eqb c "\" then
        match r with
        | e :: r' =>
            if Ascii.eqb e "u" then
              match r' with
              | _ :: _ :: h :: l :: r'' =>
                  Some (ascii_of_N (16 * hex_value h + hex_value l), r'')
              | _ => None
              end
            else if Ascii.eqb e "b" then Some ("008"%char, r')
            else if Ascii.eqb e "t" then Some ("009"%char, r')
            else if Ascii.eqb e "n" then Some ("010"%char, r')
            else if Ascii.eqb e "f" then Some ("012"%char, r')
            else if Ascii.eqb e "r" then Some ("013"%char, r')
            else Some (e, r')
        | [] => None
        end
      else Some (c, r)
  end.

(** What [join_comma] puts after its first part. *)
Fixpoint join_tail (parts : list (list ascii)) : list ascii :=
  match parts with
  | [] => []
  | q :: rest => ","%char :: q ++ join_tail rest
  end.

Definition field_chars (p : string * json) : list ascii :=
  quote_chars (fst p) ++ ":"%char :: JSON_chars (snd p).

(** The constructor of a document and the constructor its first character
    announces. *)
Definition json_kind (j : json) : nat :=
  match j with
  | JNull => 0
  | JBool true => 1
  | JBool false => 2
  | JNum _ => 3
  | JStr _ => 4
  | JArr _ => 5
  | JObj _ => 6
  end.

Definition head_kind (c : ascii) : nat :=
  if Ascii.eqb c "n" then 0
  else if Ascii.eqb c "t" then 1
  else if Ascii.eqb c "f" then 2
  else if is_digit c || Ascii.eqb c "-" then 3
  else if Ascii.eqb c "034" then 4
  else if Ascii.eqb c "[" then 5
  else if Ascii.eqb c "{" then 6
  else 7.

(** A property name that an assignment to a fresh object appends: no
    array index and not [__proto__]. *)
Definition plain_name (k : string) : Prop :=
  array_index k = None /\ k <> "__proto__".

(** The [newMap] of [useQueriesSwr] as a function of the per-name keys
    alone. *)
Definition newMap_of (keys : list (string * option string))
  : option (list (string * json)) :=
  fold_left
    (fun acc e =>
       match acc, snd e with
       | Some newMap, Some k => Some (prop_set (fst e) (JStr k) newMap)
       | _, _ => None
       end)
    keys (Some []).

(** The keys [usePaginatedQuerySwr] derives, and the entries it may leave
    under them: results whose status is neither of the loading ones. *)
Definition paginated_key (k : string) : Prop :=
  exists name a opts, createQueryKey name (VArr [a; opts]) = Some k.

Definition settled (r : Observed) : Prop :=
  exists status,
    get_prop (val r) "status" = Some status
    /\ is_string status "LoadingMore" = false
    /\ is_string status "LoadingFirstPage" = false.

Definition cache_settled (w : World) : Prop :=
  forall k r, paginated_key k -> cacheAtom w !! k = Some r -> settled r.

(** Induction over a document that reaches into arrays and objects. *)
Section json_induction.
Variable P : json -> Prop.
Hypothesis Hnull : P JNull.
Hypothesis Hbool : forall b, P (JBool b).
Hypothesis Hnum : forall n, P (JNum n).
Hypothesis Hstr : forall s, P (JStr s).
Hypothesis Harr : forall items, Forall P items -> P (JArr items).
Hypothesis Hobj : forall props, Forall (fun p => P (snd p)) props -> P (JObj props).

Fixpoint json_nested_ind (j : json) : P j :=
  match j with
  | JNull => Hnull
  | JBool b => Hbool b
  | JNum n => Hnum n
  | JStr s => Hstr s
  | JArr items =>
      Harr items
        ((fix all (l : list json) : Forall P l :=
            match l with
            | [] => @List.Forall_nil _ P
            | x :: l' => @List.Forall_cons _ P x l' (json_nested_ind x) (all l')
            end) items)
  | JObj props =>
      Hobj props
        ((fix all (l : list (string * json)) : Forall (fun p => P (snd p)) l :=
            match l with
            | [] => @List.Forall_nil _ (fun p => P (snd p))
            | p :: l' =>
                @List.Forall_cons _ (fun p => P (snd p)) p l'
                  (json_nested_ind (snd p)) (all l')
            end) props)
  end.
End json_induction.

(** Induction over [value_equiv] that reaches into arrays and objects. *)
Section value_equiv_induction.
Variable P : value -> value -> Prop.
Hypothesis Hsame : forall v, P v v.
Hypothesis Harray : forall xs ys,
  Forall2 (fun x y => value_equiv x y /\ P x y) xs ys -> P (VArr xs) (VArr ys).
Hypothesis Hobject : forall ps rs qs,
  NoDup (map fst ps) ->
  Permutation ps rs ->
  Forall2 (fun p q => fst p = fst q /\ value_equiv (snd p) (snd q)
                      /\ P (snd p) (snd q)) rs qs ->
  P (VObj ps) (VObj qs).

Fixpoint value_equiv_nested_ind a b (H : value_equiv a b) {struct H} : P a b :=
  match H with
  | equiv_same v => Hsame v
  | equiv_array xs ys F =>
      Harray xs ys
        ((fix all xs ys (F : Forall2 value_equiv xs ys) {struct F}
            : Forall2 (fun x y => value_equiv x y /\ P x y) xs ys :=
            match F with
            | List.Forall2_nil _ => List.Forall2_nil _
            | List.Forall2_cons _ _ h t =>
                List.Forall2_cons _ _ (conj h (value_equiv_nested_ind _ _ h)) (all _ _ t)
            end) xs ys F)
  | equiv_object ps rs qs Hnd Hp F =>
      Hobject ps rs qs Hnd Hp
        ((fix all rs qs
            (F : Forall2 (fun p q => fst p = fst q /\ value_equiv (snd p) (snd q)) rs qs)
            {struct F}
            : Forall2 (fun p q => fst p = fst q /\ value_equiv (snd p) (snd q)
                                  /\ P (snd p) (snd q)) rs qs :=
            match F with
            | List.Forall2_nil _ => List.Forall2_nil _
            | List.Forall2_cons _ _ h t =>
                List.Forall2_cons _ _
                  (match h with
                   | conj e v => conj e (conj v (value_equiv_nested_ind _ _ v))
                   end)
                  (all _ _ t)
            end) rs qs F)
  end.
End value_equiv_induction.

(** ** Sample data

    A counter query and a message list, the provider answers used in the
    examples, and a paginated result object. *)
Definition counters_get : FunctionReference := {| functionName := "counters:get" |}.
Definition messages_list : FunctionReference := {| functionName := "messages:list" |}.

Definition counter_args (id : Z) : value := VObj [("id", VNum id)].

(** A provider that answers every single query with [r]. *)
Definition answering (r : Observed) : FunctionReference -> list value -> Observed :=
  fun _ _ => r.

(** A provider that answers every batch with [r]. *)
Definition answering_batch (r : Observed)
  : list (string * QueryRequest) -> Observed :=
  fun _ => r.

Definition page (status : string) (items : list value) (loadMore : N) : value :=
  VObj [("results", VArr items);
        ("status", VStr status);
        ("isLoading",
         VBool (String.eqb status "LoadingFirstPage" || String.eqb status "LoadingMore"));
        ("loadMore", VNative loadMore)].

Definition page_options : value := VObj [("initialNumItems", VNum 25)].

Definition channel_args (c : string) : value := VObj [("channelId", VStr c)].

Definition batch_declaration (first second : string) : list (string * QueryRequest) :=
  [(first, {| query := counters_get; args := counter_args 1 |});
   (second, {| query := messages_list; args := channel_args "general" |})].

(** The world after a call site of [usePaginatedQuerySwr] mounted on a
    first page that can load more. *)
Definition first_page : Observed := Obs (page "CanLoadMore" [VNum 1; VNum 2] 9) 1.

Definition first_page_world : World :=
  match usePaginatedQuerySwr (answering first_page) messages_list
          [channel_args "general"; page_options] None initial_world with
  | Some out => world out
  | None => initial_world
  end.

(** The keys [useQueriesSwr] derives. *)
Definition composite_key (k : string) : Prop :=
  exists queries, queries_key queries = Some k.

(** What the reachable caches keep: no entry is [undefined], and an entry
    under a composite key is a batch that has finished loading. *)
Definition cache_loaded (w : World) : Prop :=
  forall k r,
    cacheAtom w !! k = Some r ->
    val r <> VUndefined
    /\ (composite_key k -> batch_isLoading (val r) = false).

(** The world after a call site of [useQueriesSwr] mounted on a loaded
    batch. *)
Definition loaded_batch : Observed :=
  Obs (VObj [("counter", VNum 4); ("messages", VArr [])]) 2.

Definition loaded_batch_world : World :=
  match useQueriesSwr (answering_batch loaded_batch)
          (batch_declaration "counter" "messages") None initial_world with
  | Some out => world out
  | None => initial_world
  end.

(** ** The route [/]

    [TabContent] of [routes/index.tsx], as far as it decides what to show:
    the hook it picks, the loading test, the values it hands to the markup.
    The markup itself, the mutation [addNumber] and its click handler are
    left out. *)





Section Route.
(** The [useQuery] of the provider, the route context [swr] and the
    generated reference [api.myFunctions.listNumbers]. *)
Variable useQuery : FunctionReference -> list value -> Observed.
Variable listNumbers : FunctionReference.

End Route.

(** * Properties *)

(** ** Decimal numerals *)

Lemma uint_chars_unique u1 : forall u2 r1 r2,
  no_digit_ahead r1 -> no_digit_ahead r2 ->
  uint_chars u1 ++ r1 = uint_chars u2 ++ r2 -> u1 = u2 /\ r1 = r2.
Proof.
  induction u1 as [|u1 IH|u1 IH|u1 IH|u1 IH|u1 IH|u1 IH|u1 IH|u1 IH|u1 IH|u1 IH];
    intros [|u2|u2|u2|u2|u2|u2|u2|u2|u2|u2] r1 r2 H1 H2 E; simpl in E;
    try (split; [reflexivity | exact E]);
    try (subst; simpl in *; discriminate);
    try (injection E as E; destruct (IH _ _ _ H1 H2 E) as [-> ->]; split; reflexivity);
    try (exfalso; injection E as E' _; vm_compute in E'; discriminate).
Qed.

Lemma uint_chars_head u :
  u <> Decimal.Nil -> exists c t, uint_chars u = c :: t /\ is_digit c = true.
Proof. destruct u; intros H; try done; simpl; eauto. Qed.

Lemma Z_to_int_cases z :
  exists u, u <> Decimal.Nil /\ (Z.to_int z = Decimal.Pos u \/ Z.to_int z = Decimal.Neg u).
Proof.
  destruct z as [|p|p]; simpl.
  - exists (Decimal.D0 Decimal.Nil). split; [done | by left].
  - exists (Pos.to_uint p). split; [apply Unsigned.to_uint_nonnil | by left].
  - exists (Pos.to_uint p). split; [apply Unsigned.to_uint_nonnil | by right].
Qed.

Lemma Z_chars_head z :
  exists c t, Z_chars z = c :: t /\ (is_digit c = true \/ c = "-"%char).
Proof.
  unfold Z_chars. destruct (Z_to_int_cases z) as (u & Hu & [-> | ->]); simpl.
  - destruct (uint_chars_head u Hu) as (c & t & -> & Hc). eauto.
  - eauto.
Qed.

Lemma Z_chars_unique z1 z2 r1 r2 :
  no_digit_ahead r1 -> no_digit_ahead r2 ->
  Z_chars z1 ++ r1 = Z_chars z2 ++ r2 -> z1 = z2 /\ r1 = r2.
Proof.
  intros H1 H2 E. unfold Z_chars in E.
  destruct (Z_to_int_cases z1) as (u1 & Hu1 & [E1 | E1]);
    destruct (Z_to_int_cases z2) as (u2 & Hu2 & [E2 | E2]);
    rewrite E1, E2 in E; simpl in E.
  - destruct (uint_chars_unique _ _ _ _ H1 H2 E) as [-> ->].
    split; [|done]. apply DecimalZ.to_int_inj. congruence.
  - destruct (uint_chars_head u1 Hu1) as (c & t & Hc & Hd).
    rewrite Hc in E. injection E as -> _. discriminate.
  - destruct (uint_chars_head u2 Hu2) as (c & t & Hc & Hd).
    rewrite Hc in E. injection E as <- _. discriminate.
  - injection E as E.
    destruct (uint_chars_unique _ _ _ _ H1 H2 E) as [-> ->].
    split; [|done]. apply DecimalZ.to_int_inj. congruence.
Qed.

(** ** Quoted strings *)

Lemma unescape_escape c r : unescape_one (escape_char c ++ r) = Some (c, r).
Proof. destruct c as [[] [] [] [] [] [] [] []]; reflexivity. Qed.

Lemma escape_chars_unique s1 : forall s2 r1 r2,
  escape_chars s1 ++ "034"%char :: r1 = escape_chars s2 ++ "034"%char :: r2 ->
  s1 = s2 /\ r1 = r2.
Proof.
  induction s1 as [|c1 s1 IH]; intros [|c2 s2] r1 r2 E; simpl in E.
  - by injection E as ->.
  - apply (f_equal unescape_one) in E.
    rewrite <- app_assoc, unescape_escape in E. discriminate.
  - apply (f_equal unescape_one) in E.
    rewrite <- app_assoc, unescape_escape in E. discriminate.
  - apply (f_equal unescape_one) in E.
    rewrite <- !app_assoc, !unescape_escape in E.
    injection E as -> E.
    destruct (IH _ _ _ E) as [-> ->]. done.
Qed.

Lemma list_ascii_of_string_inj s1 s2 :
  list_ascii_of_string s1 = list_ascii_of_string s2 -> s1 = s2.
Proof.
  intros E. rewrite <- (string_of_list_ascii_of_string s1), E.
  apply string_of_list_ascii_of_string.
Qed.

Lemma string_of_list_ascii_inj l1 l2 :
  string_of_list_ascii l1 = string_of_list_ascii l2 -> l1 = l2.
Proof.
  intros E. rewrite <- (list_ascii_of_string_of_list_ascii l1), E.
  apply list_ascii_of_string_of_list_ascii.
Qed.

Lemma quote_chars_unique k1 k2 r1 r2 :
  quote_chars k1 ++ r1 = quote_chars k2 ++ r2 -> k1 = k2 /\ r1 = r2.
Proof.
  unfold quote_chars. simpl. rewrite <- !app_assoc. simpl.
  intros E. injection E as E.
  destruct (escape_chars_unique _ _ _ _ E) as [E' ->].
  by apply list_ascii_of_string_inj in E' as ->.
Qed.

(** ** JSON documents *)

Lemma join_comma_cons rest : forall p, join_comma (p :: rest) = p ++ join_tail rest.
Proof.
  induction rest as [|q rest IH]; intros p.
  - simpl. by rewrite app_nil_r.
  - change (join_comma (p :: q :: rest)) with (p ++ ","%char :: join_comma (q :: rest)).
    by rewrite IH.
Qed.

Lemma digit_head_kind c : is_digit c = true -> head_kind c = 3%nat.
Proof. destruct c as [[] [] [] [] [] [] [] []]; try discriminate; reflexivity. Qed.

Lemma JSON_chars_head j r :
  exists c t, JSON_chars j ++ r = c :: t /\ head_kind c = json_kind j.
Proof.
  destruct j as [|[]|n|s|items|props]; simpl; eauto.
  destruct (Z_chars_head n) as (c & t & -> & [Hc | ->]); simpl.
  - eauto using digit_head_kind.
  - eauto.
Qed.

Lemma no_digit_ahead_tail parts (close : ascii) r :
  close = "]"%char \/ close = "}"%char ->
  no_digit_ahead (join_tail parts ++ close :: r).
Proof.
  intros H. destruct parts; simpl; [|reflexivity].
  destruct H as [-> | ->]; reflexivity.
Qed.

Lemma kinds_agree j1 j2 r1 r2 :
  JSON_chars j1 ++ r1 = JSON_chars j2 ++ r2 -> json_kind j1 = json_kind j2.
Proof.
  intros E.
  destruct (JSON_chars_head j1 r1) as (c1 & t1 & E1 & <-).
  destruct (JSON_chars_head j2 r2) as (c2 & t2 & E2 & <-).
  congruence.
Qed.

(** Comma-separated parts, each readable in one way, followed by a closing
    bracket, are readable in one way. *)
Lemma join_tail_unique {A : Type} (pr : A -> list ascii) (close : ascii) l1 :
  close = "]"%char \/ close = "}"%char ->
  Forall (fun x => forall y r1 r2,
            no_digit_ahead r1 -> no_digit_ahead r2 ->
            pr x ++ r1 = pr y ++ r2 -> x = y /\ r1 = r2) l1 ->
  forall l2 r1 r2,
    join_tail (map pr l1) ++ close :: r1 = join_tail (map pr l2) ++ close :: r2 ->
    l1 = l2 /\ r1 = r2.
Proof.
  intros Hclose Hall.
  induction Hall as [|x1 l1 Hx _ IH]; intros [|x2 l2] r1 r2 E; simpl in E.
  - by injection E as ->.
  - destruct Hclose as [-> | ->]; discriminate.
  - destruct Hclose as [-> | ->]; discriminate.
  - injection E as E. rewrite <- !app_assoc in E.
    destruct (Hx _ _ _ (no_digit_ahead_tail _ _ _ Hclose)
                (no_digit_ahead_tail _ _ _ Hclose) E) as [-> E'].
    by destruct (IH _ _ _ E') as [-> ->].
Qed.

Lemma join_comma_unique {A : Type} (pr : A -> list ascii) (close : ascii) l1 :
  close = "]"%char \/ close = "}"%char ->
  (forall x r, exists c t, pr x ++ r = c :: t /\ c <> close) ->
  Forall (fun x => forall y r1 r2,
            no_digit_ahead r1 -> no_digit_ahead r2 ->
            pr x ++ r1 = pr y ++ r2 -> x = y /\ r1 = r2) l1 ->
  forall l2 r1 r2,
    join_comma (map pr l1) ++ close :: r1 = join_comma (map pr l2) ++ close :: r2 ->
    l1 = l2 /\ r1 = r2.
Proof.
  intros Hclose Hhead Hall l2 r1 r2 E.
  destruct Hall as [|x1 l1 Hx Hl]; destruct l2 as [|x2 l2].
  - simpl in E. by injection E as ->.
  - exfalso. simpl map in E. rewrite join_comma_cons, <- app_assoc in E.
    destruct (Hhead x2 (join_tail (map pr l2) ++ close :: r2)) as (c & t & Ec & Hc).
    rewrite Ec in E. simpl in E. by injection E as <- _.
  - exfalso. simpl map in E. rewrite join_comma_cons, <- app_assoc in E.
    destruct (Hhead x1 (join_tail (map pr l1) ++ close :: r1)) as (c & t & Ec & Hc).
    rewrite Ec in E. simpl in E. by injection E as -> _.
  - simpl map in E. rewrite !join_comma_cons, <- !app_assoc in E.
    destruct (Hx _ _ _ (no_digit_ahead_tail _ _ _ Hclose)
                (no_digit_ahead_tail _ _ _ Hclose) E) as [-> E'].
    by destruct (join_tail_unique pr close l1 Hclose Hl _ _ _ E') as [-> ->].
Qed.

Lemma JSON_chars_array items r :
  JSON_chars (JArr items) ++ r
  = "["%char :: join_comma (map JSON_chars items) ++ "]"%char :: r.
Proof. simpl. by rewrite <- app_assoc. Qed.

Lemma JSON_chars_object props r :
  JSON_chars (JObj props) ++ r
  = "{"%char :: join_comma (map field_chars props) ++ "}"%char :: r.
Proof.
  simpl. rewrite <- app_assoc. do 3 f_equal.
  apply map_ext. by intros [k v].
Qed.

(** No two documents print alike, even followed by more text, as long as
    that text does not continue a numeral. *)
Lemma JSON_chars_unique j1 : forall j2 r1 r2,
  no_digit_ahead r1 -> no_digit_ahead r2 ->
  JSON_chars j1 ++ r1 = JSON_chars j2 ++ r2 -> j1 = j2 /\ r1 = r2.
Proof.
  induction j1 as [|b1|n1|s1|items1 IH|props1 IH] using json_nested_ind;
    intros j2 r1 r2 H1 H2 E; pose proof (kinds_agree _ _ _ _ E) as K;
    destruct j2 as [|b2|n2|s2|items2|props2];
    try (destruct b1); try (destruct b2); try discriminate K; clear K.
  - simpl in E. by injection E as ->.
  - simpl in E. by injection E as ->.
  - simpl in E. by injection E as ->.
  - simpl in E. by destruct (Z_chars_unique _ _ _ _ H1 H2 E) as [-> ->].
  - simpl in E. by destruct (quote_chars_unique _ _ _ _ E) as [-> ->].
  - rewrite !JSON_chars_array in E. injection E as E.
    apply join_comma_unique in E as [-> ->]; [done | by left | | done].
    intros x r. destruct (JSON_chars_head x r) as (c & t & -> & Hc).
    exists c, t. split; [done|]. intros ->. destruct x as [|[]| | | |]; discriminate.
  - rewrite !JSON_chars_object in E. injection E as E.
    apply join_comma_unique in E as [-> ->]; [done | by right | |].
    + intros [k v] r. unfold field_chars, quote_chars. simpl. eauto.
    + eapply Forall_impl; [exact IH|].
      intros [k1 v1] Hv [k2 v2] q1 q2 Hq1 Hq2 Eq. unfold field_chars in Eq.
      cbn [fst snd] in Eq. rewrite <- !app_assoc in Eq.
      apply quote_chars_unique in Eq as [-> Eq]. injection Eq as Eq.
      cbn [snd] in Hv. by destruct (Hv _ _ _ Hq1 Hq2 Eq) as [-> ->].
Qed.

Theorem JSON_stringify_inj j1 j2 :
  JSON_stringify j1 = JSON_stringify j2 -> j1 = j2.
Proof.
  unfold JSON_stringify. intros E%string_of_list_ascii_inj.
  destruct (JSON_chars_unique j1 j2 [] [] I I) as [-> _]; [|done].
  by rewrite !app_nil_r.
Qed.

(** ** The canonical encoding *)

Lemma convexToJson_array items :
  convexToJson (VArr items) = option_map JArr (encode_items items).
Proof. reflexivity. Qed.

Lemma convexToJson_object props :
  convexToJson (VObj props)
  = option_map (fun es => JObj (object_of_entries (sort_entries es)))
      (encode_fields props).
Proof. reflexivity. Qed.

(** ** Sorting the entries of an object *)

Section sorting_facts.
Context {A : Type}.
Implicit Types (e : string * A) (l : list (string * A)).

Lemma key_lt_trans e1 e2 e3 : key_lt e1 e2 -> key_lt e2 e3 -> key_lt e1 e3.
Proof. unfold key_lt. apply String_as_OT.lt_strorder. Qed.

Lemma key_lt_irrefl e : ~ key_lt e e.
Proof. unfold key_lt. apply String_as_OT.lt_strorder. Qed.

Lemma insert_entry_perm e l : Permutation (insert_entry e l) (e :: l).
Proof.
  induction l as [|e' l IH]; simpl; [done|].
  destruct (String_as_OT.compare (fst e) (fst e')); try done.
  rewrite IH. apply perm_swap.
Qed.

Lemma sort_entries_perm l : Permutation (sort_entries l) l.
Proof.
  induction l as [|e l IH]; simpl; [done|].
  rewrite insert_entry_perm. by constructor.
Qed.

Lemma insert_entry_sorted e l :
  StronglySorted key_lt l ->
  (forall x, In x l -> fst x <> fst e) ->
  StronglySorted key_lt (insert_entry e l).
Proof.
  intros Hs. induction Hs as [|e' l Hs IH Hall]; intros Hne; simpl.
  - repeat constructor.
  - destruct (String_as_OT.compare_spec (fst e) (fst e')) as [E|E|E].
    + exfalso. apply (Hne e'); [by left | done].
    + constructor; [by constructor|].
      constructor; [exact E|].
      eapply List.Forall_impl; [|exact Hall].
      intros x Hx. by eapply key_lt_trans.
    + constructor.
      * apply IH. intros x Hx. apply Hne. by right.
      * rewrite List.Forall_forall. intros x Hx.
        apply (Permutation_in _ (insert_entry_perm e l)) in Hx as [<- | Hx].
        -- exact E.
        -- rewrite List.Forall_forall in Hall. by apply Hall.
Qed.

Lemma sort_entries_sorted l :
  NoDup (map fst l) -> StronglySorted key_lt (sort_entries l).
Proof.
  induction l as [|e l IH]; simpl; intros Hnd; [constructor|].
  apply NoDup_cons in Hnd as [Hin Hnd].
  apply insert_entry_sorted; [by apply IH|].
  intros x Hx E. apply Hin. rewrite <- E.
  apply list_elem_of_In, in_map. by apply (Permutation_in _ (sort_entries_perm l)).
Qed.

Lemma sorted_perm_unique l1 : forall l2,
  StronglySorted key_lt l1 -> StronglySorted key_lt l2 ->
  Permutation l1 l2 -> l1 = l2.
Proof.
  induction l1 as [|a1 l1 IH]; intros l2 H1 H2 Hp.
  - by apply Permutation_nil in Hp.
  - destruct l2 as [|a2 l2]; [by apply Permutation_sym, Permutation_nil in Hp|].
    apply StronglySorted_inv in H1 as [H1 F1].
    apply StronglySorted_inv in H2 as [H2 F2].
    rewrite List.Forall_forall in F1, F2.
    assert (a1 = a2) as ->.
    { assert (In a1 (a2 :: l2)) as [E | I1] by (apply (Permutation_in _ Hp); by left);
        [done|].
      assert (In a2 (a1 :: l1)) as [E | I2]
        by (apply (Permutation_in _ (Permutation_sym Hp)); by left); [done|].
      exfalso. apply (key_lt_irrefl a1).
      eapply key_lt_trans; [by apply F1 | by apply F2]. }
    f_equal. apply IH; [done | done |]. by apply Permutation_cons_inv in Hp.
Qed.

(** The sort normalises the insertion order away. *)
Lemma sort_entries_perm_eq l1 l2 :
  NoDup (map fst l1) -> Permutation l1 l2 -> sort_entries l1 = sort_entries l2.
Proof.
  intros Hnd Hp. apply sorted_perm_unique.
  - by apply sort_entries_sorted.
  - apply sort_entries_sorted. by rewrite <- Hp.
  - by rewrite !sort_entries_perm.
Qed.
End sorting_facts.

(** ** The encoding does not see the insertion order *)

Lemma encode_fields_keys l : forall js,
  encode_fields l = Some js -> sublist (map fst js) (map fst l).
Proof.
  induction l as [|[k x] l IH]; simpl; intros js E.
  - injection E as <-. constructor.
  - destruct (is_undefined x).
    { apply sublist_cons. by apply IH. }
    destruct (validateObjectField k); [|done].
    destruct (convexToJson x) as [j|]; [|done].
    destruct (encode_fields l) as [js'|]; [|done].
    injection E as <-. simpl. apply sublist_skip. by apply IH.
Qed.

Lemma encode_fields_NoDup l js :
  NoDup (map fst l) -> encode_fields l = Some js -> NoDup (map fst js).
Proof.
  intros Hnd E. exact (sublist_NoDup _ _ Hnd (encode_fields_keys _ _ E)).
Qed.

Lemma encode_fields_perm l1 l2 :
  Permutation l1 l2 ->
  option_Forall2 (@Permutation _) (encode_fields l1) (encode_fields l2).
Proof.
  induction 1 as [|[k x] l1 l2 _ IH|[k1 x1] [k2 x2] l|l1 l2 l3 _ IH1 _ IH2].
  - simpl. by constructor.
  - simpl. destruct (is_undefined x); [done|].
    destruct (validateObjectField k); [|constructor].
    destruct (convexToJson x); [|constructor].
    destruct IH; constructor. by constructor.
  - simpl.
    destruct (is_undefined x1), (is_undefined x2),
      (validateObjectField k1), (validateObjectField k2),
      (convexToJson x1), (convexToJson x2), (encode_fields l);
      constructor; try done. apply perm_swap.
  - destruct IH1; inversion IH2; subst; constructor. by etrans.
Qed.

Lemma value_equiv_undefined a b :
  value_equiv a b -> is_undefined a = is_undefined b.
Proof. by destruct 1. Qed.

Theorem convexToJson_equiv a b :
  value_equiv a b -> convexToJson a = convexToJson b.
Proof.
  induction 1 as [v|xs ys F|ps rs qs Hnd Hp F] using value_equiv_nested_ind.
  - done.
  - rewrite !convexToJson_array. f_equal.
    induction F as [|x y xs ys [_ E] _ IH]; simpl; [done|].
    by rewrite E, IH.
  - rewrite !convexToJson_object.
    assert (encode_fields rs = encode_fields qs) as <-.
    { clear Hp Hnd. induction F as [|[k x] [k' y] rs qs (Ek & Hv & E) _ IH]; simpl; [done|].
      simpl in Ek, Hv, E. subst k'.
      by rewrite (value_equiv_undefined _ _ Hv), E, IH. }
    pose proof (encode_fields_perm _ _ Hp) as Hperm.
    destruct (encode_fields ps) as [js|] eqn:Ejs;
      destruct (encode_fields rs) as [ks|] eqn:Eks; inversion Hperm; [|done].
    simpl. do 3 f_equal.
    apply sort_entries_perm_eq; [|done]. by eapply encode_fields_NoDup.
Qed.

(** ** Keys *)

Lemma createQueryKey_inj q1 a1 q2 a2 k :
  createQueryKey q1 a1 = Some k -> createQueryKey q2 a2 = Some k ->
  getFunctionName q1 = getFunctionName q2 /\ convexToJson a1 = convexToJson a2.
Proof.
  unfold createQueryKey. intros E1 E2.
  destruct (convexToJson a1) as [j1|]; [|done].
  destruct (convexToJson a2) as [j2|]; [|done].
  rewrite <- E2 in E1. apply (inj Some), JSON_stringify_inj in E1.
  by injection E1 as -> ->.
Qed.

Lemma encode_items_length l : forall js,
  encode_items l = Some js -> length js = length l.
Proof.
  induction l as [|x l IH]; simpl; intros js E.
  - by injection E as <-.
  - destruct (convexToJson x); [|done].
    destruct (encode_items l) as [js'|]; [|done].
    injection E as <-. simpl. f_equal. by apply IH.
Qed.

(** The keys of calls with a different number of arguments differ: the
    keys of [useQuerySwr] and of [usePaginatedQuerySwr] never meet. *)
Lemma createQueryKey_arity q1 l1 q2 l2 k :
  createQueryKey q1 (VArr l1) = Some k -> createQueryKey q2 (VArr l2) = Some k ->
  length l1 = length l2.
Proof.
  intros E1 E2. destruct (createQueryKey_inj _ _ _ _ _ E1 E2) as [_ E].
  rewrite !convexToJson_array in E.
  unfold createQueryKey in E1. rewrite convexToJson_array in E1.
  destruct (encode_items l1) as [js1|] eqn:H1; [|done].
  destruct (encode_items l2) as [js2|] eqn:H2; [|done].
  injection E as ->.
  by rewrite <- (encode_items_length _ _ H1), <- (encode_items_length _ _ H2).
Qed.

(** A composite key is no key of a single or paginated query: the one
    prints an object, the other an array. *)
Lemma queries_key_apart queries q a k :
  queries_key queries = Some k -> createQueryKey q a = Some k -> False.
Proof.
  unfold queries_key, createQueryKey. intros E1 E2.
  destruct (queries_newMap queries) as [m|]; [|done].
  destruct (convexToJson a) as [j|]; [|done].
  rewrite <- E2 in E1. by apply (inj Some), JSON_stringify_inj in E1.
Qed.

(** ** Own properties *)

Section props_facts.
Context {A : Type}.
Implicit Types (o : list (string * A)) (k : string) (v : A).

Lemma prop_lookup_None k o : prop_lookup k o = None <-> k ∉ map fst o.
Proof.
  induction o as [|[k' v'] o IH]; simpl.
  - split; [intros _; apply not_elem_of_nil | done].
  - rewrite not_elem_of_cons. destruct (String.eqb_spec k k') as [->|Hne].
    + split; [done | by intros [? _]].
    + rewrite IH. split; [by intros ? | by intros [_ ?]].
Qed.

Lemma prop_lookup_app k o o' :
  prop_lookup k (o ++ o')
  = match prop_lookup k o with Some v => Some v | None => prop_lookup k o' end.
Proof.
  induction o as [|[k' v'] o IH]; simpl; [done|].
  by destruct (String.eqb k k').
Qed.

Lemma prop_lookup_replace k k' v o :
  prop_lookup k (prop_replace k' v o)
  = if String.eqb k k' then option_map (fun _ => v) (prop_lookup k o)
    else prop_lookup k o.
Proof.
  induction o as [|[k0 v0] o IH]; simpl.
  - by destruct (String.eqb k k').
  - destruct (String.eqb_spec k' k0) as [->|Hne0]; simpl.
    + by destruct (String.eqb_spec k k0).
    + destruct (String.eqb_spec k k0) as [->|Hne].
      * destruct (String.eqb_spec k0 k') as [->|]; done.
      * exact IH.
Qed.

Lemma prop_lookup_insert_index n k k' v o :
  prop_lookup k' o = None ->
  prop_lookup k (prop_insert_index n k' v o)
  = if String.eqb k k' then Some v else prop_lookup k o.
Proof.
  induction o as [|[k0 v0] o IH]; simpl; [done|].
  destruct (String.eqb_spec k' k0) as [->|Hne]; [done|]. intros Hno.
  destruct (array_index k0) as [m|]; [destruct (N.ltb n m)|]; simpl; try done.
  rewrite (IH Hno).
  destruct (String.eqb_spec k k') as [->|]; [|done].
  by destruct (String.eqb_spec k' k0).
Qed.

(** Reading after [o[k'] = v]. *)
Lemma prop_lookup_define k k' v o :
  prop_lookup k (prop_define k' v o)
  = if String.eqb k k' then Some v else prop_lookup k o.
Proof.
  unfold prop_define. destruct (prop_lookup k' o) as [v'|] eqn:E.
  - rewrite prop_lookup_replace.
    destruct (String.eqb_spec k k') as [->|]; [|done]. by rewrite E.
  - destruct (array_index k') as [n|].
    + by apply prop_lookup_insert_index.
    + rewrite prop_lookup_app. simpl.
      destruct (String.eqb_spec k k') as [->|]; [by rewrite E|].
      by destruct (prop_lookup k o).
Qed.

(** Plain names that are new are appended in turn. *)
Lemma object_of_entries_app (l : list (string * A)) : forall o,
  NoDup (map fst (o ++ l)) ->
  Forall (fun e => plain_name (fst e)) l ->
  fold_left (fun out e => prop_set (fst e) (snd e) out) l o = o ++ l.
Proof.
  induction l as [|[k v] l IH]; intros o Hnd Hidx; simpl.
  - by rewrite app_nil_r.
  - apply Forall_cons in Hidx as [[Hk Hp] Hidx]. simpl in Hk, Hp.
    assert (prop_set k v o = o ++ [(k, v)]) as ->.
    { unfold prop_set, prop_define.
      destruct (String.eqb_spec k "__proto__") as [|_]; [done|].
      assert (prop_lookup k o = None) as ->.
      { apply prop_lookup_None. rewrite map_app in Hnd.
        apply NoDup_app in Hnd as (_ & Hd & _). intros Hin.
        apply (Hd k Hin). simpl. by left. }
      by rewrite Hk. }
    rewrite IH; [by rewrite <- app_assoc | by rewrite <- app_assoc | done].
Qed.

Lemma object_of_entries_id (l : list (string * A)) :
  NoDup (map fst l) ->
  Forall (fun e => plain_name (fst e)) l ->
  object_of_entries l = l.
Proof. intros Hnd Hidx. unfold object_of_entries. by rewrite object_of_entries_app. Qed.
End props_facts.

(** ** The cache and the effects *)

Lemma commit_fires {D : Type} (same : D -> D -> bool) prev dep effect w :
  effect_fires same prev dep -> commit same prev dep effect w = effect w.
Proof.
  destruct prev as [p|]; simpl; [|done].
  by intros ->.
Qed.

Lemma commit_cases {D : Type} (same : D -> D -> bool) prev dep effect w :
  commit same prev dep effect w = w \/ commit same prev dep effect w = effect w.
Proof.
  destruct prev as [p|]; simpl; [|by right].
  destruct (same p dep); [by left | by right].
Qed.

Lemma read_cache_insert c key r : read_cache (<[key := r]> c) key = r.
Proof. unfold read_cache. by rewrite lookup_insert_eq. Qed.

Lemma read_cache_present c key r : c !! key = Some r -> read_cache c key = r.
Proof. unfold read_cache. by intros ->. Qed.

Lemma read_cache_absent c key :
  c !! key = None -> read_cache c key = Obs VUndefined 0.
Proof. unfold read_cache. by intros ->. Qed.

Lemma coalesce_kept stale result :
  is_nullish (val stale) = false -> coalesce stale result = stale.
Proof. unfold coalesce. by intros ->. Qed.

Lemma not_undefined v : v <> VUndefined -> is_undefined v = false.
Proof. by destruct v. Qed.

Lemma is_undefined_true v : is_undefined v = true <-> v = VUndefined.
Proof. by destruct v. Qed.

(** What an evaluation of [useQuerySwr] leaves in the world: nothing, or
    one write of the live result under the key. *)
Lemma useQuerySwr_world uq name args h w out :
  useQuerySwr uq name args h w = Some out ->
  exists key,
    createQueryKey name (VArr args) = Some key
    /\ (world out = w
        \/ val (uq name args) <> VUndefined
           /\ world out = store_set (<[key := uq name args]> (cacheAtom w)) w).
Proof.
  unfold useQuerySwr, useQuerySwr_with, useQuerySwr_enabled; simpl.
  destruct (createQueryKey name (VArr args)) as [key|]; [|done].
  intros E. injection E as <-. exists key. split; [done|]. simpl.
  destruct (commit_cases Object_is h (uq name args)
              (fun w' => if negb (is_undefined (val (uq name args)))
                         then store_set (<[key := uq name args]> (store_get w')) w'
                         else w') w) as [-> | ->]; [by left|].
  destruct (is_undefined (val (uq name args))) eqn:U; simpl; [by left|].
  right. split; [|done]. intros Hu. by rewrite Hu in U.
Qed.

Lemma useQueriesSwr_world uqs queries h w out :
  useQueriesSwr uqs queries h w = Some out ->
  exists key,
    queries_key queries = Some key
    /\ (world out = w
        \/ batch_isLoading (val (uqs queries)) = false
           /\ world out = store_set (<[key := uqs queries]> (cacheAtom w)) w).
Proof.
  unfold useQueriesSwr, useQueriesSwr_with, useQueriesSwr_enabled; simpl.
  destruct (queries_key queries) as [key|]; [|done].
  intros E. injection E as <-. exists key. split; [done|]. simpl.
  destruct (commit_cases Object_is h (uqs queries)
              (fun w' => if negb (batch_isLoading (val (uqs queries)))
                         then store_set (<[key := uqs queries]> (store_get w')) w'
                         else w') w) as [-> | ->]; [by left|].
  destruct (batch_isLoading (val (uqs queries))); simpl; [by left | by right].
Qed.

Lemma usePaginatedQuerySwr_world up name args h w out :
  usePaginatedQuerySwr up name args h w = Some out ->
  exists key,
    createQueryKey name (VArr args) = Some key
    /\ (world out = w
        \/ settled (up name args)
           /\ world out = store_set (<[key := up name args]> (cacheAtom w)) w).
Proof.
  unfold usePaginatedQuerySwr, usePaginatedQuerySwr_with,
    usePaginatedQuerySwr_enabled; simpl.
  destruct (createQueryKey name (VArr args)) as [key|]; [|done].
  destruct (get_prop (val (up name args)) "loadMore") as [orig|]; [|done].
  destruct (get_prop (val (up name args)) "status") as [status|] eqn:S; [|done].
  intros E. injection E as <-. exists key. split; [done|]. simpl.
  match goal with
  | |- commit ?s ?p ?d ?e ?w = _ \/ _ =>
      destruct (commit_cases s p d e w) as [-> | ->]; [by left|]
  end.
  destruct (is_string status "LoadingMore") eqn:L1; simpl; [by left|].
  destruct (is_string status "LoadingFirstPage") eqn:L2; simpl; [by left|].
  right. split; [|done]. by exists status.
Qed.

(** The [loadMore] of the paginated hook over a provider function: the
    store receives the cache without [key], then the provider is called. *)
Lemma call_loadMore key id arg w :
  call (VSwrLoadMore key (VNative id)) arg w
  = Some (native_call id arg (store_set (delete key (cacheAtom w)) w)).
Proof. reflexivity. Qed.

(** A call never adds to the cache. *)
Lemma call_cache f : forall arg w w' k r,
  call f arg w = Some w' -> cacheAtom w' !! k = Some r -> cacheAtom w !! k = Some r.
Proof.
  induction f as [| | | | | | | id | key orig IH]; intros arg w w' k r E Hk;
    simpl in E; try done.
  - injection E as <-. done.
  - specialize (IH _ _ _ _ _ E Hk). simpl in IH.
    by apply lookup_delete_Some in IH as [_ ?].
Qed.

(** ** What the cache holds under a paginated key *)

Lemma step_settled w w' : step w w' -> cache_settled w -> cache_settled w'.
Proof.
  intros Hstep Hw k r Hk Hr.
  destruct Hstep as [uq name args h w out Hlen E|uqs queries h w out E
                    |up name a opts h w out E|f arg w w' E].
  - destruct (useQuerySwr_world _ _ _ _ _ _ E) as (key & Ekey & [Hw' | [_ Hw']]);
      rewrite Hw' in Hr; [by eapply Hw|]. simpl in Hr.
    destruct (decide (key = k)) as [->|Hne].
    + destruct Hk as (name' & a' & opts' & Ek).
      pose proof (createQueryKey_arity _ _ _ _ _ Ekey Ek) as Hl. simpl in Hl. lia.
    + rewrite lookup_insert_ne in Hr by done. by eapply Hw.
  - destruct (useQueriesSwr_world _ _ _ _ _ E) as (key & Ekey & [Hw' | [_ Hw']]);
      rewrite Hw' in Hr; [by eapply Hw|]. simpl in Hr.
    destruct (decide (key = k)) as [->|Hne].
    + destruct Hk as (name' & a' & opts' & Ek).
      destruct (queries_key_apart _ _ _ _ Ekey Ek).
    + rewrite lookup_insert_ne in Hr by done. by eapply Hw.
  - destruct (usePaginatedQuerySwr_world _ _ _ _ _ _ E)
      as (key & Ekey & [Hw' | [Hs Hw']]); rewrite Hw' in Hr; [by eapply Hw|].
    simpl in Hr. destruct (decide (key = k)) as [->|Hne].
    + rewrite lookup_insert_eq in Hr. by injection Hr as <-.
    + rewrite lookup_insert_ne in Hr by done. by eapply Hw.
  - eapply Hw; [done|]. by eapply call_cache.
Qed.

Lemma reachable_settled w : reachable w -> cache_settled w.
Proof.
  induction 1 as [|w w' _ IH Hstep].
  - intros k r _ Hr. simpl in Hr. by rewrite lookup_empty in Hr.
  - by eapply step_settled.
Qed.

(** * The properties of the specification *)

(** ** Single query *)

(** Staleness substitution holds for every cached result that is not
    nullish: with the live result still [undefined], the hook returns the
    cached one. *)
Lemma useQuerySwr_stale uq name args h w key R :
  createQueryKey name (VArr args) = Some key ->
  cacheAtom w !! key = Some R ->
  val (uq name args) = VUndefined ->
  is_nullish (val R) = false ->
  exists out, useQuerySwr uq name args h w = Some out /\ returned out = R.
Proof.
  intros Hkey HR Hlive Hnn.
  unfold useQuerySwr, useQuerySwr_with, useQuerySwr_enabled; simpl.
  rewrite Hkey, Hlive; simpl.
  eexists; split; [reflexivity|]; simpl.
  unfold store_get. rewrite (read_cache_present _ _ _ HR).
  by apply coalesce_kept.
Qed.

(** C1, at the input where the code departs from it: with [null] cached
    under the key and the live result [undefined], [stale ?? result] lets
    the cached [null] go and the hook returns [undefined]. *)
Theorem useQuerySwr_cached_null_is_dropped :
  exists key out,
    createQueryKey counters_get (VArr [counter_args 2]) = Some key
    /\ useQuerySwr (answering (Obs VUndefined 0)) counters_get [counter_args 2] None
         {| cacheAtom := {[key := Obs VNull 0]}; trace := [] |} = Some out
    /\ val (returned out) = VUndefined
    /\ returned out <> Obs VNull 0.
Proof.
  eexists _, _. split; [reflexivity|]. split; [vm_compute; reflexivity|].
  split; [reflexivity | discriminate].
Qed.

(** The gate of the effect: a render whose live result is the committed
    one leaves the world as it is. *)
Lemma useQuerySwr_skips_unchanged_result uq name args p w out :
  Object_is p (uq name args) = true ->
  useQuerySwr uq name args (Some p) w = Some out ->
  world out = w.
Proof.
  unfold useQuerySwr, useQuerySwr_with, useQuerySwr_enabled; simpl.
  destruct (createQueryKey name (VArr args)) as [key|]; [|done].
  intros Hsame E. injection E as <-. simpl. by rewrite Hsame.
Qed.

(** Stale-while-revalidate at work: a call site mounts and sees [5]; a
    second call site for the same query then mounts while the provider
    still answers [undefined], and is handed the cached [5]. *)
Example remount_returns_stale :
  exists o1 o2,
    useQuerySwr (answering (Obs (VNum 5) 0)) counters_get [counter_args 1]
      None initial_world = Some o1
    /\ useQuerySwr (answering (Obs VUndefined 0)) counters_get [counter_args 1]
         None (world o1) = Some o2
    /\ returned o2 = Obs (VNum 5) 0
    /\ world o2 = world o1.
Proof.
  eexists _, _. split; [vm_compute; reflexivity|].
  split; [vm_compute; reflexivity|]. split; reflexivity.
Qed.

(** C2, as stated, fails: [result] is the only dependency of the effect.
    A call site that mounts on [5] writes it; rendered again with the same
    arguments and the same result it writes nothing; rendered with changed
    arguments for which the provider already holds the same primitive
    result, it commits no effect either, and nothing is written under the
    new key. *)
Lemma useQuerySwr_same_result_new_key_not_written :
  exists o1 o2 o3 key2,
    useQuerySwr (answering (Obs (VNum 5) 0)) counters_get [counter_args 1]
      None initial_world = Some o1
    /\ useQuerySwr (answering (Obs (VNum 5) 0)) counters_get [counter_args 1]
         (committed o1) (world o1) = Some o2
    /\ world o2 = world o1
    /\ useQuerySwr (answering (Obs (VNum 5) 0)) counters_get [counter_args 2]
         (committed o2) (world o2) = Some o3
    /\ createQueryKey counters_get (VArr [counter_args 2]) = Some key2
    /\ val (answering (Obs (VNum 5) 0) counters_get [counter_args 2]) <> VUndefined
    /\ world o3 = world o1
    /\ cacheAtom (world o3) !! key2 = None.
Proof.
  eexists _, _, _, _. split; [vm_compute; reflexivity|].
  split; [vm_compute; reflexivity|]. split; [reflexivity|].
  split; [vm_compute; reflexivity|]. split; [reflexivity|].
  split; [discriminate|]. split; [reflexivity | vm_compute; reflexivity].
Qed.

(** C2, amended: an evaluation of [useQuerySwr] whose live result is not
    [undefined] and whose effect fires (the first evaluation of the call
    site, or a live result that is not [Object.is]-equal to the one of the
    previous evaluation) stores a copy of the cache with that result under
    the derived key; the next read of the key returns exactly it. *)
Theorem useQuerySwr_writes_on_success uq name args h w key :
  createQueryKey name (VArr args) = Some key ->
  val (uq name args) <> VUndefined ->
  effect_fires Object_is h (uq name args) ->
  exists out,
    useQuerySwr uq name args h w = Some out
    /\ world out = store_set (<[key := uq name args]> (cacheAtom w)) w
    /\ cacheAtom (world out) !! key = Some (uq name args)
    /\ read_cache (store_get (world out)) key = uq name args.
Proof.
  intros Hkey Hlive Hfire.
  unfold useQuerySwr, useQuerySwr_with, useQuerySwr_enabled; simpl.
  rewrite Hkey. eexists; split; [reflexivity|]; simpl.
  rewrite (commit_fires _ _ _ _ _ Hfire), (not_undefined _ Hlive); simpl.
  split; [done|]. split; [apply lookup_insert_eq | apply read_cache_insert].
Qed.

(** A call site that last committed [4] and now sees [5]. *)
Lemma useQuerySwr_writes_on_success_witness :
  exists key,
    createQueryKey counters_get (VArr [counter_args 2]) = Some key
    /\ exists out,
         useQuerySwr (answering (Obs (VNum 5) 0)) counters_get [counter_args 2]
           (Some (Obs (VNum 4) 0)) initial_world = Some out
         /\ world out
            = store_set (<[key := Obs (VNum 5) 0]> (cacheAtom initial_world)) initial_world
         /\ cacheAtom (world out) !! key = Some (Obs (VNum 5) 0)
         /\ read_cache (store_get (world out)) key = Obs (VNum 5) 0.
Proof.
  eexists. split; [reflexivity|].
  apply (useQuerySwr_writes_on_success (answering (Obs (VNum 5) 0)) counters_get
           [counter_args 2] (Some (Obs (VNum 4) 0)) initial_world _ eq_refl).
  - discriminate.
  - reflexivity.
Defined.

(** C3: a live result that is not [undefined] is what [useQuerySwr]
    returns, whatever the cache holds under the key. *)
Theorem useQuerySwr_fresh_first uq name args h w key :
  createQueryKey name (VArr args) = Some key ->
  val (uq name args) <> VUndefined ->
  exists out,
    useQuerySwr uq name args h w = Some out /\ returned out = uq name args.
Proof.
  intros Hkey Hlive.
  unfold useQuerySwr, useQuerySwr_with, useQuerySwr_enabled; simpl.
  rewrite Hkey. eexists; split; [reflexivity|]; simpl.
  by rewrite (not_undefined _ Hlive).
Qed.

(** A live [5] over a cached [4]. *)
Lemma useQuerySwr_fresh_first_witness :
  exists key,
    createQueryKey counters_get (VArr [counter_args 2]) = Some key
    /\ exists out,
         useQuerySwr (answering (Obs (VNum 5) 0)) counters_get [counter_args 2] None
           {| cacheAtom := {[key := Obs (VNum 4) 0]}; trace := [] |} = Some out
         /\ returned out = Obs (VNum 5) 0.
Proof.
  eexists. split; [reflexivity|].
  apply (useQuerySwr_fresh_first (answering (Obs (VNum 5) 0)) counters_get
           [counter_args 2] None _ _ eq_refl).
  discriminate.
Defined.

(** ** Batches *)

Lemma batch_isLoading_object props :
  batch_isLoading (VObj props) = true <-> exists name, (name, VUndefined) ∈ props.
Proof.
  unfold batch_isLoading, Object_values. simpl. rewrite existsb_exists. split.
  - intros (v & Hin & Hv). apply in_map_iff in Hin as ([name v'] & <- & Hin).
    simpl in Hv. apply is_undefined_true in Hv as ->.
    exists name. by apply list_elem_of_In.
  - intros (name & Hin). exists VUndefined. split; [|done].
    apply in_map_iff. exists (name, VUndefined). split; [done|].
    by apply list_elem_of_In.
Qed.

(** C4, as stated, fails in its last part: [result] is the only dependency
    of the effect.  A call site that mounts on a loaded batch writes it;
    rendered again with the same declaration and the same result object it
    writes nothing; handed the same result object for a changed
    declaration, it commits no effect either, and the mapping is not
    written under the new composite key. *)
Lemma useQueriesSwr_same_result_new_key_not_written :
  exists o1 o2 o3 key2,
    useQueriesSwr (answering_batch (Obs (VObj [("a", VNum 5)]) 7))
      [("a", {| query := counters_get; args := counter_args 1 |})]
      None initial_world = Some o1
    /\ useQueriesSwr (answering_batch (Obs (VObj [("a", VNum 5)]) 7))
         [("a", {| query := counters_get; args := counter_args 1 |})]
         (committed o1) (world o1) = Some o2
    /\ world o2 = world o1
    /\ useQueriesSwr (answering_batch (Obs (VObj [("a", VNum 5)]) 7))
         [("a", {| query := counters_get; args := counter_args 2 |})]
         (committed o2) (world o2) = Some o3
    /\ queries_key [("a", {| query := counters_get; args := counter_args 2 |})]
       = Some key2
    /\ batch_isLoading (VObj [("a", VNum 5)]) = false
    /\ world o3 = world o1
    /\ cacheAtom (world o3) !! key2 = None.
Proof.
  eexists _, _, _, _. split; [vm_compute; reflexivity|].
  split; [vm_compute; reflexivity|]. split; [reflexivity|].
  split; [vm_compute; reflexivity|]. split; [reflexivity|].
  split; [reflexivity|]. split; [reflexivity | vm_compute; reflexivity].
Qed.

(** C4, amended: [isLoading] holds exactly when a named sub-result of the
    live batch is [undefined].  While it holds, nothing is written and the
    hook returns the batch mapping cached under the composite key if there
    is one, the live mapping if the key is absent.  When it does not hold,
    the hook returns the live mapping, and when its effect fires (first
    evaluation of the call site, or a result object that is not the one of
    the previous evaluation) it stores a copy of the cache with the whole
    mapping under the composite key. *)
Theorem useQueriesSwr_batch uqs queries h w key props i :
  queries_key queries = Some key ->
  uqs queries = Obs (VObj props) i ->
  exists out,
    useQueriesSwr uqs queries h w = Some out
    /\ (batch_isLoading (VObj props) = true
        <-> exists name, (name, VUndefined) ∈ props)
    /\ (batch_isLoading (VObj props) = true ->
        world out = w
        /\ (forall m j, cacheAtom w !! key = Some (Obs (VObj m) j) ->
                        returned out = Obs (VObj m) j)
        /\ (cacheAtom w !! key = None -> returned out = uqs queries))
    /\ (batch_isLoading (VObj props) = false ->
        returned out = uqs queries
        /\ (effect_fires Object_is h (uqs queries) ->
            world out = store_set (<[key := uqs queries]> (cacheAtom w)) w
            /\ cacheAtom (world out) !! key = Some (uqs queries))).
Proof.
  intros Hkey Hlive.
  unfold useQueriesSwr, useQueriesSwr_with, useQueriesSwr_enabled; simpl.
  rewrite Hkey, Hlive. simpl val.
  eexists; split; [reflexivity|]. split; [apply batch_isLoading_object|].
  simpl. split; intros Hload; rewrite Hload; simpl.
  - split; [by destruct (commit_cases Object_is h (Obs (VObj props) i)
                           (fun w' => w') w) as [-> | ->]|].
    unfold store_get. split.
    + intros m j Hc. by rewrite (read_cache_present _ _ _ Hc).
    + intros Hc. by rewrite (read_cache_absent _ _ Hc).
  - split; [done|]. intros Hfire.
    rewrite (commit_fires _ _ _ _ _ Hfire). split; [done|]. apply lookup_insert_eq.
Qed.

(** A batch with one sub-result still loading, over a cached batch. *)
Lemma useQueriesSwr_batch_witness :
  exists key,
    queries_key (batch_declaration "counter" "messages") = Some key
    /\ exists out,
         useQueriesSwr
           (answering_batch (Obs (VObj [("counter", VNum 5); ("messages", VUndefined)]) 3))
           (batch_declaration "counter" "messages") None
           {| cacheAtom :=
                {[key := Obs (VObj [("counter", VNum 4); ("messages", VArr [])]) 2]};
              trace := [] |} = Some out
         /\ returned out = Obs (VObj [("counter", VNum 4); ("messages", VArr [])]) 2.
Proof.
  eexists. split; [reflexivity|].
  match goal with
  | |- exists out, useQueriesSwr ?uqs ?qs ?h ?w = Some out /\ _ =>
      destruct (useQueriesSwr_batch uqs qs h w _ _ 3 eq_refl eq_refl)
        as (out & E & _ & Hload & _)
  end.
  exists out. split; [exact E|].
  destruct (Hload eq_refl) as (_ & Hstale & _).
  apply Hstale. vm_compute. reflexivity.
Defined.

(** ** Pagination *)

Lemma string_of_nat_not_status i : string_of_nat i <> "status".
Proof.
  unfold string_of_nat. intros E.
  apply (f_equal list_ascii_of_string) in E.
  rewrite list_ascii_of_string_of_list_ascii in E.
  destruct (Z_chars_head (Z.of_nat i)) as (c & t & Hz & Hc).
  rewrite Hz in E. injection E as -> _. by destruct Hc.
Qed.

Lemma index_from_no_status {A : Type} (l : list A) : forall i,
  prop_lookup "status" (index_from i l) = None.
Proof.
  induction l as [|x l IH]; intros i; [done|].
  cbn [index_from prop_lookup].
  destruct (String.eqb_spec "status" (string_of_nat i)) as [E|]; [|apply IH].
  symmetry in E. by apply string_of_nat_not_status in E.
Qed.

(** [{ ...v, loadMore }.status] is [v.status]. *)
Lemma spread_status v f :
  is_nullish v = false ->
  get_prop (VObj (prop_define "loadMore" f (own_props v))) "status" = get_prop v "status".
Proof.
  intros Hv. simpl. rewrite prop_lookup_define. simpl.
  destruct v; try done; simpl; by rewrite ?index_from_no_status.
Qed.

Lemma spread_loadMore v f :
  get_prop (VObj (prop_define "loadMore" f (own_props v))) "loadMore" = Some f.
Proof. simpl. rewrite prop_lookup_define. by rewrite String.eqb_refl. Qed.

Lemma settled_not_nullish r : settled r -> is_nullish (val r) = false.
Proof. intros (status & E & _). by destruct (val r). Qed.

(** C5: the [loadMore] the paginated hook returns, called with [count],
    first stores a copy of the cache without the entry of the current key
    and only then calls the [loadMore] of the provider.  In any world that
    holds nothing under that key, such as the one the call leaves, an
    evaluation for the same key with live status [LoadingFirstPage] writes
    nothing and returns the live result, its [loadMore] wrapped. *)
Theorem loadMore_invalidates up name args h w out :
  usePaginatedQuerySwr up name args h w = Some out ->
  exists key orig,
    createQueryKey name (VArr args) = Some key
    /\ get_prop (val (up name args)) "loadMore" = Some orig
    /\ get_prop (returned out) "loadMore" = Some (VSwrLoadMore key orig)
    /\ forall id count w1,
         orig = VNative id ->
         exists w2,
           call (VSwrLoadMore key orig) count w1 = Some w2
           /\ trace w2
              = trace w1 ++ [StoreSet (delete key (cacheAtom w1)); NativeCall id count]
           /\ cacheAtom w2 = delete key (cacheAtom w1)
           /\ cacheAtom w2 !! key = None
           /\ forall w3 up' h' orig',
                cacheAtom w3 !! key = None ->
                get_prop (val (up' name args)) "status"
                = Some (VStr "LoadingFirstPage") ->
                get_prop (val (up' name args)) "loadMore" = Some orig' ->
                exists out',
                  usePaginatedQuerySwr up' name args h' w3 = Some out'
                  /\ returned out'
                     = VObj (prop_define "loadMore" (VSwrLoadMore key orig')
                               (own_props (val (up' name args))))
                  /\ get_prop (returned out') "status"
                     = Some (VStr "LoadingFirstPage")
                  /\ world out' = w3.
Proof.
  unfold usePaginatedQuerySwr, usePaginatedQuerySwr_with,
    usePaginatedQuerySwr_enabled; simpl.
  destruct (createQueryKey name (VArr args)) as [key|] eqn:Hkey; [|done].
  destruct (get_prop (val (up name args)) "loadMore") as [orig|]; [|done].
  destruct (get_prop (val (up name args)) "status") as [status|]; [|done].
  intros E. injection E as <-. exists key, orig.
  split; [done|]. split; [done|]. split; [apply spread_loadMore|].
  intros id count w1 ->. eexists. split; [apply call_loadMore|].
  split; [simpl; by rewrite <- app_assoc|]. split; [done|].
  split; [apply lookup_delete_eq|].
  intros w3 up' h' orig' Hnone Hstatus Horig. rewrite Hstatus, Horig.
  eexists. split; [reflexivity|]. cbn [returned world].
  unfold store_get. rewrite (read_cache_absent _ _ Hnone).
  change (is_string (VStr "LoadingFirstPage") "LoadingFirstPage") with true.
  change (coalesce (Obs VUndefined 0) (up' name args)) with (up' name args).
  cbv iota. split; [done|]. split.
  - rewrite spread_status; [done|]. by destruct (val (up' name args)).
  - destruct (commit_cases prim_eqb h' (VStr "LoadingFirstPage")
                (fun w' => if negb (is_string (VStr "LoadingFirstPage") "LoadingMore")
                              && negb true
                           then store_set (<[key := up' name args]> (cacheAtom w')) w'
                           else w') w3) as [E | E]; exact E.
Qed.

(** Mount on a first page, call the returned [loadMore], evaluate again
    while the first page loads. *)
Lemma loadMore_invalidates_witness :
  exists out,
    usePaginatedQuerySwr (answering first_page) messages_list
      [channel_args "general"; page_options] None initial_world = Some out
    /\ exists key w2 out',
         createQueryKey messages_list (VArr [channel_args "general"; page_options])
         = Some key
         /\ get_prop (returned out) "loadMore" = Some (VSwrLoadMore key (VNative 9))
         /\ call (VSwrLoadMore key (VNative 9)) (VNum 25) (world out) = Some w2
         /\ trace w2
            = trace (world out)
              ++ [StoreSet (delete key (cacheAtom (world out))); NativeCall 9 (VNum 25)]
         /\ cacheAtom w2 !! key = None
         /\ usePaginatedQuerySwr (answering (Obs (page "LoadingFirstPage" [] 10) 2))
              messages_list [channel_args "general"; page_options] None w2
            = Some out'
         /\ get_prop (returned out') "status" = Some (VStr "LoadingFirstPage")
         /\ world out' = w2.
Proof.
  eexists. split; [vm_compute; reflexivity|].
  match goal with
  | |- exists key w2 out', _ /\ get_prop (returned ?out) _ = _ /\ _ =>
      destruct (loadMore_invalidates (answering first_page) messages_list
                  [channel_args "general"; page_options] None initial_world out)
        as (key & orig & Hkey & Horig & Hret & Hcall); [vm_compute; reflexivity|]
  end.
  injection Horig as <-.
  match goal with
  | |- exists key w2 out', _ /\ _ /\ call _ _ ?w1 = _ /\ _ =>
      destruct (Hcall 9%N (VNum 25) w1 eq_refl)
        as (w2 & E & Ht & _ & Hnone & Hnext)
  end.
  destruct (Hnext w2 (answering (Obs (page "LoadingFirstPage" [] 10) 2)) None
              (VNative 10) Hnone eq_refl eq_refl) as (out' & E' & _ & Hst & Hw).
  exists key, w2, out'. repeat split; assumption.
Defined.

(** The sample world is one the hooks reach. *)
Lemma first_page_world_reachable : reachable first_page_world.
Proof.
  unfold first_page_world.
  destruct (usePaginatedQuerySwr (answering first_page) messages_list
              [channel_args "general"; page_options] None initial_world)
    as [out|] eqn:E; [|apply reachable_initial].
  eapply reachable_step; [apply reachable_initial|].
  eapply step_paginated. exact E.
Qed.

(** C10: in every world the hooks can reach, an evaluation of the paginated
    hook with live status [LoadingFirstPage] that finds an entry under its
    key writes nothing and returns the properties of the cached result with
    [loadMore] alone replaced; the status it returns is the stored one,
    which is neither [LoadingFirstPage] nor [LoadingMore]. *)
Theorem first_page_substitution_masks_status w up name a opts h key stale :
  reachable w ->
  createQueryKey name (VArr [a; opts]) = Some key ->
  get_prop (val (up name [a; opts])) "status" = Some (VStr "LoadingFirstPage") ->
  cacheAtom w !! key = Some stale ->
  exists out orig,
    usePaginatedQuerySwr up name [a; opts] h w = Some out
    /\ get_prop (val (up name [a; opts])) "loadMore" = Some orig
    /\ returned out
       = VObj (prop_define "loadMore" (VSwrLoadMore key orig) (own_props (val stale)))
    /\ (forall k, k <> "loadMore" ->
          prop_lookup k (own_props (returned out))
          = prop_lookup k (own_props (val stale)))
    /\ get_prop (returned out) "loadMore" = Some (VSwrLoadMore key orig)
    /\ get_prop (returned out) "status" = get_prop (val stale) "status"
    /\ get_prop (returned out) "status" <> Some (VStr "LoadingFirstPage")
    /\ get_prop (returned out) "status" <> Some (VStr "LoadingMore")
    /\ world out = w.
Proof.
  intros Hreach Hkey Hstatus Hstale.
  assert (settled stale) as Hsettled.
  { eapply (reachable_settled _ Hreach); [|exact Hstale]. by exists name, a, opts. }
  pose proof (settled_not_nullish _ Hsettled) as Hnn.
  assert (exists orig, get_prop (val (up name [a; opts])) "loadMore" = Some orig)
    as [orig Horig] by (destruct (val (up name [a; opts])); by eauto).
  unfold usePaginatedQuerySwr, usePaginatedQuerySwr_with,
    usePaginatedQuerySwr_enabled; cbn [negb FEATURE_FLAG_USE_QUERY_SWR].
  rewrite Hkey, Hstatus, Horig.
  eexists _, orig. split; [reflexivity|]. cbn [returned world].
  unfold store_get. rewrite (read_cache_present _ _ _ Hstale).
  change (is_string (VStr "LoadingFirstPage") "LoadingFirstPage") with true.
  cbv iota. rewrite (coalesce_kept _ _ Hnn).
  split; [done|]. split; [done|]. split.
  { intros k Hk. cbn [own_props]. rewrite prop_lookup_define.
    by destruct (String.eqb_spec k "loadMore"). }
  split; [apply spread_loadMore|].
  rewrite (spread_status _ _ Hnn).
  destruct Hsettled as (status & -> & Hlm & Hlfp).
  split; [done|]. split; [by intros [= ->]|]. split; [by intros [= ->]|].
  destruct (commit_cases prim_eqb h (VStr "LoadingFirstPage")
              (fun w' => if negb (is_string (VStr "LoadingFirstPage") "LoadingMore")
                            && negb true
                         then store_set (<[key := up name [a; opts]]> (cacheAtom w')) w'
                         else w') w) as [E | E]; exact E.
Qed.

(** A first page loading again over the cached first page. *)
Lemma first_page_substitution_masks_status_witness :
  exists key,
    createQueryKey messages_list (VArr [channel_args "general"; page_options])
    = Some key
    /\ cacheAtom first_page_world !! key = Some first_page
    /\ exists out,
         usePaginatedQuerySwr (answering (Obs (page "LoadingFirstPage" [] 10) 2))
           messages_list [channel_args "general"; page_options] None
           first_page_world = Some out
         /\ get_prop (returned out) "status" = Some (VStr "CanLoadMore")
         /\ get_prop (returned out) "loadMore" = Some (VSwrLoadMore key (VNative 10)).
Proof.
  eexists. split; [reflexivity|].
  match goal with
  | |- cacheAtom first_page_world !! ?key = _ /\ _ =>
      assert (cacheAtom first_page_world !! key = Some first_page) as Hstale
        by (vm_compute; reflexivity);
      destruct (first_page_substitution_masks_status first_page_world
                  (answering (Obs (page "LoadingFirstPage" [] 10) 2)) messages_list
                  (channel_args "general") page_options None key first_page
                  first_page_world_reachable eq_refl eq_refl Hstale)
        as (out & orig & E & Horig & _ & _ & Hlm & Hst & _)
  end.
  split; [exact Hstale|].
  injection Horig as <-.
  exists out. split; [exact E|]. split; [exact Hst | exact Hlm].
Defined.

(** ** The feature flag *)

(** C7: with the flag off each export is the hook of the provider: it
    returns what the provider returns for the same input and leaves the
    call site and the world, cache and trace, as they were. *)
Theorem disabled_flag_is_pass_through
    (uq : FunctionReference -> list value -> Observed)
    (uqs : list (string * QueryRequest) -> Observed)
    (up : FunctionReference -> list value -> Observed) :
  (forall name args (h : option Observed) w,
      useQuerySwr_with uq false name args h w
      = Some {| returned := uq name args; committed := h; world := w |})
  /\ (forall queries (h : option Observed) w,
        useQueriesSwr_with uqs false queries h w
        = Some {| returned := uqs queries; committed := h; world := w |})
  /\ (forall name args (h : option value) w,
        usePaginatedQuerySwr_with up false name args h w
        = Some {| returned := val (up name args); committed := h; world := w |}).
Proof. repeat split. Qed.

(** ** Frame *)

Lemma store_set_frame c key r w k :
  k <> key ->
  cacheAtom (store_set (<[key := r]> c) w) !! k = c !! k.
Proof. intros Hne. simpl. by apply lookup_insert_ne. Qed.

(** C9: every write of the hooks stores a copy of the whole cache in which
    the one key written is set, and the [loadMore] of the paginated hook a
    copy in which the one key is removed; the entry under any other key is
    the same after as before. *)
Theorem cache_frame :
  (forall uq name args h w out,
      useQuerySwr uq name args h w = Some out ->
      exists key,
        createQueryKey name (VArr args) = Some key
        /\ (world out = w
            \/ world out = store_set (<[key := uq name args]> (cacheAtom w)) w)
        /\ forall k, k <> key -> cacheAtom (world out) !! k = cacheAtom w !! k)
  /\ (forall uqs queries h w out,
        useQueriesSwr uqs queries h w = Some out ->
        exists key,
          queries_key queries = Some key
          /\ (world out = w
              \/ world out = store_set (<[key := uqs queries]> (cacheAtom w)) w)
          /\ forall k, k <> key -> cacheAtom (world out) !! k = cacheAtom w !! k)
  /\ (forall up name args h w out,
        usePaginatedQuerySwr up name args h w = Some out ->
        exists key,
          createQueryKey name (VArr args) = Some key
          /\ (world out = w
              \/ world out = store_set (<[key := up name args]> (cacheAtom w)) w)
          /\ forall k, k <> key -> cacheAtom (world out) !! k = cacheAtom w !! k)
  /\ (forall key id count w w',
        call (VSwrLoadMore key (VNative id)) count w = Some w' ->
        trace w' = trace w ++ [StoreSet (delete key (cacheAtom w)); NativeCall id count]
        /\ cacheAtom w' !! key = None
        /\ forall k, k <> key -> cacheAtom w' !! k = cacheAtom w !! k).
Proof.
  split; [|split; [|split]].
  - intros uq name args h w out E.
    destruct (useQuerySwr_world _ _ _ _ _ _ E) as (key & Hkey & [Hw | [_ Hw]]);
      exists key; (split; [done|]); rewrite Hw; (split; [by auto|]); [done|].
    intros k Hk. by apply store_set_frame.
  - intros uqs queries h w out E.
    destruct (useQueriesSwr_world _ _ _ _ _ E) as (key & Hkey & [Hw | [_ Hw]]);
      exists key; (split; [done|]); rewrite Hw; (split; [by auto|]); [done|].
    intros k Hk. by apply store_set_frame.
  - intros up name args h w out E.
    destruct (usePaginatedQuerySwr_world _ _ _ _ _ _ E)
      as (key & Hkey & [Hw | [_ Hw]]);
      exists key; (split; [done|]); rewrite Hw; (split; [by auto|]); [done|].
    intros k Hk. by apply store_set_frame.
  - intros key id count w w' E. rewrite call_loadMore in E. injection E as <-.
    simpl. split; [by rewrite <- app_assoc|]. split; [apply lookup_delete_eq|].
    intros k Hk. by apply lookup_delete_ne.
Qed.

(** A single-query write next to a cached page. *)
Lemma cache_frame_witness :
  exists paged,
    createQueryKey messages_list (VArr [channel_args "general"; page_options])
    = Some paged
    /\ exists out key,
         useQuerySwr (answering (Obs (VNum 5) 0)) counters_get [counter_args 2]
           None first_page_world = Some out
         /\ createQueryKey counters_get (VArr [counter_args 2]) = Some key
         /\ cacheAtom (world out) !! key = Some (Obs (VNum 5) 0)
         /\ cacheAtom (world out) !! paged = Some first_page.
Proof.
  eexists. split; [reflexivity|].
  destruct cache_frame as (Hsingle & _).
  destruct (Hsingle (answering (Obs (VNum 5) 0)) counters_get [counter_args 2]
              None first_page_world _ eq_refl) as (key & Hkey & _ & Hframe).
  eexists _, key. split; [reflexivity|]. split; [exact Hkey|].
  injection Hkey as <-. split; [vm_compute; reflexivity|].
  rewrite Hframe; [vm_compute; reflexivity|].
  apply String.eqb_neq. vm_compute. reflexivity.
Defined.

(** ** Key derivation *)

(** C6: semantically equal arguments, whatever the insertion order of
    their properties, give one key; different canonical names or different
    canonical encodings of the arguments give different keys. *)
Theorem createQueryKey_canonical :
  (forall q a b, value_equiv a b -> createQueryKey q a = createQueryKey q b)
  /\ (forall q1 a1 q2 a2 j1 j2,
        convexToJson a1 = Some j1 ->
        convexToJson a2 = Some j2 ->
        getFunctionName q1 <> getFunctionName q2 \/ j1 <> j2 ->
        exists k1 k2,
          createQueryKey q1 a1 = Some k1
          /\ createQueryKey q2 a2 = Some k2
          /\ k1 <> k2).
Proof.
  split.
  - intros q a b Hab. unfold createQueryKey. by rewrite (convexToJson_equiv _ _ Hab).
  - intros q1 a1 q2 a2 j1 j2 E1 E2 Hdiff.
    unfold createQueryKey. rewrite E1, E2. eexists _, _.
    split; [reflexivity|]. split; [reflexivity|].
    intros E%JSON_stringify_inj. injection E as En Ej.
    destruct Hdiff as [Hn | Hj]; [by apply Hn | by apply Hj].
Qed.

(** Two insertion orders of the same arguments; two channels. *)
Lemma createQueryKey_canonical_witness :
  createQueryKey messages_list
    (VArr [VObj [("channelId", VStr "general"); ("limit", VNum 10)]])
  = createQueryKey messages_list
      (VArr [VObj [("limit", VNum 10); ("channelId", VStr "general")]])
  /\ exists k1 k2,
       createQueryKey messages_list (VArr [channel_args "general"]) = Some k1
       /\ createQueryKey messages_list (VArr [channel_args "random"]) = Some k2
       /\ k1 <> k2.
Proof.
  destruct createQueryKey_canonical as [Hsame Hdiff]. split.
  - apply Hsame. apply equiv_array. constructor; [|constructor].
    apply (equiv_object _ [("limit", VNum 10); ("channelId", VStr "general")]).
    + apply NoDup_cons. split; [|apply NoDup_singleton].
      intros [E | H]%elem_of_cons; [discriminate | by apply elem_of_nil in H].
    + apply perm_swap.
    + repeat constructor.
  - eapply Hdiff; [reflexivity | reflexivity |]. right. discriminate.
Defined.

(** ** The composite key *)

Lemma newMap_step_None l :
  fold_left
    (fun acc (e : string * option string) =>
       match acc, snd e with
       | Some newMap, Some k => Some (prop_set (fst e) (JStr k) newMap)
       | _, _ => None
       end) l None = None.
Proof. induction l as [|e l IH]; simpl; done. Qed.

Lemma queries_newMap_per_name queries :
  queries_newMap queries = newMap_of (per_name_keys queries).
Proof.
  unfold queries_newMap, newMap_of, per_name_keys.
  generalize (Some (@nil (string * json))). 
  induction queries as [|e l IH]; intros acc; simpl; [done|].
  apply IH.
Qed.

Lemma newMap_of_keyed l : forall acc m,
  fold_left
    (fun acc (e : string * option string) =>
       match acc, snd e with
       | Some newMap, Some k => Some (prop_set (fst e) (JStr k) newMap)
       | _, _ => None
       end) l (Some acc) = Some m ->
  exists keyed : list (string * string),
    l = map (fun e => (fst e, Some (snd e))) keyed
    /\ m = fold_left (fun out e => prop_set (fst e) (snd e) out)
             (map (fun e => (fst e, JStr (snd e))) keyed) acc.
Proof.
  induction l as [|[name [k|]] l IH]; intros acc m E; simpl in E.
  - injection E as <-. by exists [].
  - destruct (IH _ _ E) as (keyed & -> & ->). by exists ((name, k) :: keyed).
  - by rewrite newMap_step_None in E.
Qed.

Lemma per_name_keys_names queries : map fst (per_name_keys queries) = map fst queries.
Proof. unfold per_name_keys. rewrite map_map. by apply map_ext. Qed.

(** The [newMap] of a declaration whose names are distinct and no array
    indices lists the names in the order of the declaration. *)
Lemma queries_newMap_names queries m :
  NoDup (map fst queries) ->
  Forall (fun e => plain_name (fst e)) queries ->
  queries_newMap queries = Some m ->
  map fst m = map fst queries.
Proof.
  intros Hnd Hidx E. rewrite queries_newMap_per_name in E.
  apply newMap_of_keyed in E as (keyed & Hk & ->).
  assert (map fst keyed = map fst queries) as Hnames.
  { rewrite <- per_name_keys_names, Hk, map_map. by apply map_ext. }
  fold (object_of_entries (map (fun e : string * string => (fst e, JStr (snd e))) keyed)).
  assert (map fst (map (fun e : string * string => (fst e, JStr (snd e))) keyed)
          = map fst keyed) as Hfst by (rewrite map_map; by apply map_ext).
  rewrite object_of_entries_id.
  - by rewrite Hfst.
  - by rewrite Hfst, Hnames.
  - rewrite Forall_forall in Hidx. apply Forall_forall.
    intros [name j] Hin. apply list_elem_of_In, in_map_iff in Hin as ([n k] & [= <- <-] & Hin).
    simpl. assert (n ∈ map fst queries) as Hq.
    { rewrite <- Hnames. apply list_elem_of_In, in_map_iff. by exists (n, k). }
    apply list_elem_of_In, in_map_iff in Hq as (e & <- & He).
    apply Hidx. by apply list_elem_of_In.
Qed.

(** C8, as stated, fails: the composite key is not the declaration
    serialised. *)
Lemma queries_key_is_not_the_declaration_serialised :
  exists k d,
    queries_key (batch_declaration "counter" "messages") = Some k
    /\ declaration_key (batch_declaration "counter" "messages") = Some d
    /\ k <> d.
Proof.
  eexists _, _. split; [reflexivity|]. split; [reflexivity|].
  apply String.eqb_neq. vm_compute. reflexivity.
Qed.

(** C8, amended: the composite key of a batch is the JSON text of the
    mapping from each declared name to the key already derived for that
    name, and depends on the declaration through those per-name keys only;
    it is sensitive to the order of the declaration: two declarations with
    the same entries, distinct names none of which is an array index or
    [__proto__], and a different order of names have different composite
    keys. *)
Theorem queries_key_from_per_name_keys :
  (forall queries queries',
      per_name_keys queries = per_name_keys queries' ->
      queries_key queries = queries_key queries')
  /\ (forall queries (keyed : list (string * string)),
        per_name_keys queries = map (fun e => (fst e, Some (snd e))) keyed ->
        queries_key queries
        = Some (JSON_stringify
                  (JObj (object_of_entries
                           (map (fun e => (fst e, JStr (snd e))) keyed)))))
  /\ (forall queries queries' k k',
        NoDup (map fst queries) ->
        Forall (fun e => plain_name (fst e)) queries ->
        Permutation queries queries' ->
        map fst queries <> map fst queries' ->
        queries_key queries = Some k ->
        queries_key queries' = Some k' ->
        k <> k').
Proof.
  split; [|split].
  - intros queries queries' E. unfold queries_key.
    by rewrite !queries_newMap_per_name, E.
  - intros queries keyed E. unfold queries_key.
    rewrite queries_newMap_per_name, E. clear E.
    unfold newMap_of, object_of_entries.
    generalize (@nil (string * json)).
    induction keyed as [|[name k] keyed IH]; intros acc; simpl; [done|].
    apply IH.
  - intros queries queries' k k' Hnd Hidx Hperm Hnames E E' <-.
    unfold queries_key in E, E'.
    destruct (queries_newMap queries) as [m|] eqn:Hm; [|done].
    destruct (queries_newMap queries') as [m'|] eqn:Hm'; [|done].
    simpl in E, E'. rewrite <- E' in E.
    apply (inj Some), JSON_stringify_inj in E. injection E as ->.
    apply Hnames.
    rewrite <- (queries_newMap_names _ _ Hnd Hidx Hm).
    apply (queries_newMap_names queries'); [by rewrite <- Hperm | | done].
    by rewrite <- Hperm.
Qed.

(** A declaration and its reverse. *)
Lemma queries_key_from_per_name_keys_witness :
  exists k k',
    queries_key (batch_declaration "counter" "messages") = Some k
    /\ queries_key (rev (batch_declaration "counter" "messages")) = Some k'
    /\ k <> k'.
Proof.
  destruct queries_key_from_per_name_keys as (_ & _ & Horder).
  eexists _, _. split; [reflexivity|]. split; [reflexivity|].
  apply (Horder (batch_declaration "counter" "messages")
           (rev (batch_declaration "counter" "messages"))).
  - apply NoDup_cons. split; [|apply NoDup_singleton].
    intros [E | H]%elem_of_cons; [discriminate | by apply elem_of_nil in H].
  - repeat constructor; discriminate.
  - apply perm_swap.
  - discriminate.
  - reflexivity.
  - reflexivity.
Defined.

(** * Further properties of the hooks and of the route *)


Lemma batch_isLoading_nullish v : is_nullish v = true -> batch_isLoading v = true.
Proof. by destruct v. Qed.

Lemma not_loading_not_nullish v : batch_isLoading v = false -> is_nullish v = false.
Proof. destruct v; try done. Qed.

Lemma step_loaded w w' : step w w' -> cache_loaded w -> cache_loaded w'.
Proof.
  intros Hstep Hw k r Hr.
  destruct Hstep as [uq name args h w out Hlen E|uqs queries h w out E
                    |up name a opts h w out E|f arg w w' E].
  - destruct (useQuerySwr_world _ _ _ _ _ _ E) as (key & Ekey & [Hw' | [Hu Hw']]);
      rewrite Hw' in Hr; [by apply Hw|]. simpl in Hr.
    destruct (decide (key = k)) as [->|Hne].
    + rewrite lookup_insert_eq in Hr. injection Hr as <-. split; [done|].
      intros (queries & Ek). destruct (queries_key_apart _ _ _ _ Ek Ekey).
    + rewrite lookup_insert_ne in Hr by done. by apply Hw.
  - destruct (useQueriesSwr_world _ _ _ _ _ E) as (key & Ekey & [Hw' | [Hl Hw']]);
      rewrite Hw' in Hr; [by apply Hw|]. simpl in Hr.
    destruct (decide (key = k)) as [->|Hne].
    + rewrite lookup_insert_eq in Hr. injection Hr as <-. split; [|done].
      intros Hu. by rewrite Hu in Hl.
    + rewrite lookup_insert_ne in Hr by done. by apply Hw.
  - destruct (usePaginatedQuerySwr_world _ _ _ _ _ _ E)
      as (key & Ekey & [Hw' | [Hs Hw']]); rewrite Hw' in Hr; [by apply Hw|].
    simpl in Hr. destruct (decide (key = k)) as [->|Hne].
    + rewrite lookup_insert_eq in Hr. injection Hr as <-. split.
      * intros Hu. apply settled_not_nullish in Hs. by rewrite Hu in Hs.
      * intros (queries & Ek). destruct (queries_key_apart _ _ _ _ Ek Ekey).
    + rewrite lookup_insert_ne in Hr by done. by apply Hw.
  - apply Hw. by eapply call_cache.
Qed.

Lemma reachable_loaded w : reachable w -> cache_loaded w.
Proof.
  induction 1 as [|w w' _ IH Hstep].
  - intros k r Hr. simpl in Hr. by rewrite lookup_empty in Hr.
  - by eapply step_loaded.
Qed.

(** X5: in every world the hooks reach, no cache entry is [undefined]: a
    key is in the cache exactly when [cache[key] !== undefined]. *)
Theorem reachable_cache_has_no_undefined w k r :
  reachable w -> cacheAtom w !! k = Some r -> val r <> VUndefined.
Proof. intros Hw Hr. by destruct (reachable_loaded _ Hw _ _ Hr). Qed.

Lemma reachable_cache_has_no_undefined_witness :
  exists key,
    createQueryKey messages_list (VArr [channel_args "general"; page_options])
    = Some key
    /\ cacheAtom first_page_world !! key = Some first_page
    /\ val first_page <> VUndefined.
Proof.
  eexists. split; [reflexivity|].
  match goal with
  | |- cacheAtom first_page_world !! ?key = _ /\ _ =>
      assert (cacheAtom first_page_world !! key = Some first_page) as Hr
        by (vm_compute; reflexivity)
  end.
  split; [exact Hr|].
  exact (reachable_cache_has_no_undefined _ _ _ first_page_world_reachable Hr).
Defined.

(** X6: in every world the hooks reach, a loading batch evaluation that
    finds an entry under its composite key returns that entry, which is a
    batch without any [undefined] sub-result, and writes nothing. *)
Theorem useQueriesSwr_substitutes_loaded_batch w uqs queries h key stale :
  reachable w ->
  queries_key queries = Some key ->
  cacheAtom w !! key = Some stale ->
  batch_isLoading (val (uqs queries)) = true ->
  exists out,
    useQueriesSwr uqs queries h w = Some out
    /\ returned out = stale
    /\ batch_isLoading (val (returned out)) = false
    /\ world out = w.
Proof.
  intros Hw Hkey Hstale Hload.
  destruct (reachable_loaded _ Hw _ _ Hstale) as [_ Hbatch].
  assert (batch_isLoading (val stale) = false) as Hs by (apply Hbatch; by exists queries).
  unfold useQueriesSwr, useQueriesSwr_with, useQueriesSwr_enabled; simpl.
  rewrite Hkey, Hload. eexists; split; [reflexivity|]. simpl.
  unfold store_get. rewrite (read_cache_present _ _ _ Hstale).
  rewrite (coalesce_kept _ _ (not_loading_not_nullish _ Hs)).
  split; [done|]. split; [done|].
  by destruct (commit_cases Object_is h (uqs queries) (fun w' => w') w) as [-> | ->].
Qed.

Lemma loaded_batch_world_reachable : reachable loaded_batch_world.
Proof.
  unfold loaded_batch_world.
  destruct (useQueriesSwr (answering_batch loaded_batch)
              (batch_declaration "counter" "messages") None initial_world)
    as [out|] eqn:E; [|apply reachable_initial].
  eapply reachable_step; [apply reachable_initial|].
  eapply step_queries. exact E.
Qed.

Lemma useQueriesSwr_substitutes_loaded_batch_witness :
  exists key,
    queries_key (batch_declaration "counter" "messages") = Some key
    /\ cacheAtom loaded_batch_world !! key = Some loaded_batch
    /\ exists out,
         useQueriesSwr
           (answering_batch (Obs (VObj [("counter", VNum 5); ("messages", VUndefined)]) 3))
           (batch_declaration "counter" "messages") None loaded_batch_world
         = Some out
         /\ returned out = loaded_batch.
Proof.
  eexists. split; [reflexivity|].
  match goal with
  | |- cacheAtom loaded_batch_world !! ?key = _ /\ _ =>
      assert (cacheAtom loaded_batch_world !! key = Some loaded_batch) as Hr
        by (vm_compute; reflexivity);
      destruct (useQueriesSwr_substitutes_loaded_batch loaded_batch_world
                  (answering_batch
                     (Obs (VObj [("counter", VNum 5); ("messages", VUndefined)]) 3))
                  (batch_declaration "counter" "messages") None key loaded_batch
                  loaded_batch_world_reachable eq_refl Hr eq_refl)
        as (out & E & Hret & _)
  end.
  split; [exact Hr|]. exists out. split; [exact E | exact Hret].
Defined.

(** X3: an evaluation in a loading state writes nothing: [useQuerySwr]
    with live result [undefined], [useQueriesSwr] with [isLoading], and
    [usePaginatedQuerySwr] with status [LoadingFirstPage] or [LoadingMore]
    leave the cache and the trace as they were. *)
Theorem loading_evaluation_writes_nothing :
  (forall uq name args h w out,
      val (uq name args) = VUndefined ->
      useQuerySwr uq name args h w = Some out ->
      world out = w)
  /\ (forall uqs queries h w out,
        batch_isLoading (val (uqs queries)) = true ->
        useQueriesSwr uqs queries h w = Some out ->
        world out = w)
  /\ (forall up name args h w out status,
        get_prop (val (up name args)) "status" = Some status ->
        is_string status "LoadingFirstPage" || is_string status "LoadingMore" = true ->
        usePaginatedQuerySwr up name args h w = Some out ->
        world out = w).
Proof.
  split; [|split].
  - intros uq name args h w out Hu E.
    by destruct (useQuerySwr_world _ _ _ _ _ _ E) as (key & _ & [Hw | [Hn _]]).
  - intros uqs queries h w out Hl E.
    destruct (useQueriesSwr_world _ _ _ _ _ E) as (key & _ & [Hw | [Hn _]]); [done|].
    by rewrite Hl in Hn.
  - intros up name args h w out status Hs Hl E.
    destruct (usePaginatedQuerySwr_world _ _ _ _ _ _ E)
      as (key & _ & [Hw | [(status' & Hs' & Hlm & Hlfp) _]]); [done|].
    rewrite Hs in Hs'. injection Hs' as <-. by rewrite Hlm, Hlfp in Hl.
Qed.

Lemma loading_evaluation_writes_nothing_witness :
  exists out,
    usePaginatedQuerySwr (answering (Obs (page "LoadingMore" [VNum 1] 9) 4))
      messages_list [channel_args "general"; page_options] None first_page_world
    = Some out
    /\ world out = first_page_world.
Proof.
  destruct loading_evaluation_writes_nothing as (_ & _ & Hpaged).
  eexists. split; [vm_compute; reflexivity|].
  eapply (Hpaged (answering (Obs (page "LoadingMore" [VNum 1] 9) 4)) messages_list
            [channel_args "general"; page_options] None first_page_world _
            (VStr "LoadingMore")); [reflexivity | reflexivity |].
  vm_compute. reflexivity.
Defined.

Lemma useQuerySwr_returned_undefined uq name args h w out key :
  createQueryKey name (VArr args) = Some key ->
  useQuerySwr uq name args h w = Some out ->
  val (returned out) = VUndefined
  <-> val (uq name args) = VUndefined
      /\ (cacheAtom w !! key = None
          \/ exists r, cacheAtom w !! key = Some r /\ is_nullish (val r) = true).
Proof.
  intros Hkey.
  unfold useQuerySwr, useQuerySwr_with, useQuerySwr_enabled; simpl.
  rewrite Hkey. intros E. injection E as <-. simpl.
  destruct (is_undefined (val (uq name args))) eqn:U.
  - apply is_undefined_true in U. unfold store_get, read_cache, coalesce.
    destruct (cacheAtom w !! key) as [r|] eqn:Hr; simpl.
    + destruct (is_nullish (val r)) eqn:Hn.
      * split; [intros _; split; [done|]; right; by exists r | done].
      * split.
        -- intros Hv. rewrite Hv in Hn. done.
        -- intros [_ [? | (r' & [= <-] & Hn')]]; [done|]. by rewrite Hn in Hn'.
    + split; [intros _; split; [done | by left] | done].
  - split; [intros Hv; by rewrite Hv in U | intros [Hv _]; by rewrite Hv in U].
Qed.

(** X1: [useQuerySwr] returns [undefined] exactly when the live result is
    [undefined] and the cache holds nothing under the key, or holds a
    nullish value there. *)
Theorem useQuerySwr_undefined_iff uq name args h w out key :
  createQueryKey name (VArr args) = Some key ->
  useQuerySwr uq name args h w = Some out ->
  val (returned out) = VUndefined
  <-> val (uq name args) = VUndefined
      /\ (cacheAtom w !! key = None
          \/ exists r, cacheAtom w !! key = Some r /\ is_nullish (val r) = true).
Proof. apply useQuerySwr_returned_undefined. Qed.

Lemma useQuerySwr_undefined_iff_witness :
  exists key out,
    createQueryKey counters_get (VArr [counter_args 2]) = Some key
    /\ useQuerySwr (answering (Obs VUndefined 0)) counters_get [counter_args 2]
         None initial_world = Some out
    /\ val (returned out) = VUndefined.
Proof.
  eexists _, _. split; [reflexivity|]. split; [reflexivity|].
  eapply (useQuerySwr_undefined_iff (answering (Obs VUndefined 0)) counters_get
            [counter_args 2] None initial_world); [reflexivity | reflexivity|].
  split; [reflexivity|]. left. vm_compute. reflexivity.
Defined.

(** ** Pagination beyond the first page *)

(** X9: whenever the live status is not [LoadingFirstPage] (so also while
    more pages load), [usePaginatedQuerySwr] returns the properties of the
    live result, with [loadMore] alone replaced, whatever the cache
    holds. *)
Theorem usePaginatedQuerySwr_passes_live_result up name args h w key orig status :
  createQueryKey name (VArr args) = Some key ->
  get_prop (val (up name args)) "loadMore" = Some orig ->
  get_prop (val (up name args)) "status" = Some status ->
  is_string status "LoadingFirstPage" = false ->
  exists out,
    usePaginatedQuerySwr up name args h w = Some out
    /\ returned out
       = VObj (prop_define "loadMore" (VSwrLoadMore key orig)
                 (own_props (val (up name args))))
    /\ (forall k, k <> "loadMore" ->
          prop_lookup k (own_props (returned out))
          = prop_lookup k (own_props (val (up name args))))
    /\ get_prop (returned out) "status" = Some status.
Proof.
  intros Hkey Horig Hstatus Hlfp.
  unfold usePaginatedQuerySwr, usePaginatedQuerySwr_with,
    usePaginatedQuerySwr_enabled; cbn [negb FEATURE_FLAG_USE_QUERY_SWR].
  rewrite Hkey, Horig, Hstatus, Hlfp.
  eexists. split; [reflexivity|]. cbn [returned].
  split; [done|]. split.
  - intros k Hk. cbn [own_props]. rewrite prop_lookup_define.
    by destruct (String.eqb_spec k "loadMore").
  - rewrite spread_status; [done|]. by destruct (val (up name args)).
Qed.

Lemma usePaginatedQuerySwr_passes_live_result_witness :
  exists key out,
    createQueryKey messages_list (VArr [channel_args "general"; page_options])
    = Some key
    /\ usePaginatedQuerySwr (answering (Obs (page "LoadingMore" [VNum 7] 9) 4))
         messages_list [channel_args "general"; page_options] None first_page_world
       = Some out
    /\ prop_lookup "results" (own_props (returned out)) = Some (VArr [VNum 7])
    /\ get_prop (returned out) "status" = Some (VStr "LoadingMore").
Proof.
  eexists _.
  destruct (usePaginatedQuerySwr_passes_live_result
              (answering (Obs (page "LoadingMore" [VNum 7] 9) 4)) messages_list
              [channel_args "general"; page_options] None first_page_world
              _ (VNative 9) (VStr "LoadingMore") eq_refl eq_refl eq_refl eq_refl)
    as (out & E & _ & Hprops & Hst).
  exists out. split; [reflexivity|]. split; [exact E|]. split; [|exact Hst].
  rewrite Hprops; [reflexivity | discriminate].
Defined.

(** X10: when the status settles (neither loading one) and the effect
    fires, the live result is cached under the key, and an evaluation for
    the same key in [LoadingFirstPage], by any call site, then returns the
    properties of that result with its own [loadMore] wrapped, and writes
    nothing. *)
Theorem usePaginatedQuerySwr_settle_then_remount
    up name args h w key orig status up' h' orig' :
  createQueryKey name (VArr args) = Some key ->
  get_prop (val (up name args)) "loadMore" = Some orig ->
  get_prop (val (up name args)) "status" = Some status ->
  is_string status "LoadingMore" = false ->
  is_string status "LoadingFirstPage" = false ->
  effect_fires prim_eqb h status ->
  get_prop (val (up' name args)) "loadMore" = Some orig' ->
  get_prop (val (up' name args)) "status" = Some (VStr "LoadingFirstPage") ->
  exists out out',
    usePaginatedQuerySwr up name args h w = Some out
    /\ cacheAtom (world out) !! key = Some (up name args)
    /\ usePaginatedQuerySwr up' name args h' (world out) = Some out'
    /\ returned out'
       = VObj (prop_define "loadMore" (VSwrLoadMore key orig')
                 (own_props (val (up name args))))
    /\ get_prop (returned out') "status" = Some status
    /\ world out' = world out.
Proof.
  intros Hkey Horig Hstatus Hlm Hlfp Hfire Horig' Hstatus'.
  assert (is_nullish (val (up name args)) = false) as Hnn
    by (by destruct (val (up name args))).
  unfold usePaginatedQuerySwr, usePaginatedQuerySwr_with,
    usePaginatedQuerySwr_enabled; cbn [negb FEATURE_FLAG_USE_QUERY_SWR].
  rewrite Hkey, Horig, Hstatus, Horig', Hstatus', Hlfp, Hlm.
  eexists _, _. split; [reflexivity|]. cbn [returned world negb andb].
  rewrite (commit_fires _ _ _ _ _ Hfire).
  unfold store_get. cbn [cacheAtom store_set]. rewrite lookup_insert_eq.
  split; [done|]. split; [reflexivity|]. cbn [returned world].
  rewrite read_cache_insert.
  change (is_string (VStr "LoadingFirstPage") "LoadingFirstPage") with true.
  cbv iota. rewrite (coalesce_kept _ _ Hnn).
  split; [done|]. split; [by rewrite (spread_status _ _ Hnn)|].
  match goal with
  | |- commit ?s ?p ?d ?e ?w0 = _ =>
      destruct (commit_cases s p d e w0) as [E | E]; exact E
  end.
Qed.

Lemma usePaginatedQuerySwr_settle_then_remount_witness :
  exists out out',
    usePaginatedQuerySwr (answering first_page) messages_list
      [channel_args "general"; page_options] None initial_world = Some out
    /\ usePaginatedQuerySwr (answering (Obs (page "LoadingFirstPage" [] 10) 2))
         messages_list [channel_args "general"; page_options] None (world out)
       = Some out'
    /\ get_prop (returned out') "status" = Some (VStr "CanLoadMore")
    /\ world out' = world out.
Proof.
  destruct (usePaginatedQuerySwr_settle_then_remount
              (answering first_page) messages_list
              [channel_args "general"; page_options] None initial_world
              _ (VNative 9) (VStr "CanLoadMore")
              (answering (Obs (page "LoadingFirstPage" [] 10) 2)) None (VNative 10)
              eq_refl eq_refl eq_refl eq_refl eq_refl I eq_refl eq_refl)
    as (out & out' & E & _ & E' & _ & Hst & Hw).
  exists out, out'. repeat split; assumption.
Defined.

Lemma prim_eqb_refl v : is_primitive v = true -> prim_eqb v v = true.
Proof.
  destruct v; try done; simpl; intros _.
  - by destruct b.
  - apply Z.eqb_refl.
  - apply String.eqb_refl.
Qed.

(** X11: the paginated effect depends on [result.status] alone: after a
    result has been cached, an evaluation of the same call site with the
    same status returns the new live result but writes nothing, and the
    cache keeps the earlier result. *)
Theorem usePaginatedQuerySwr_same_status_not_cached
    up1 up2 name args h w key orig1 orig2 status :
  createQueryKey name (VArr args) = Some key ->
  get_prop (val (up1 name args)) "loadMore" = Some orig1 ->
  get_prop (val (up1 name args)) "status" = Some status ->
  get_prop (val (up2 name args)) "loadMore" = Some orig2 ->
  get_prop (val (up2 name args)) "status" = Some status ->
  is_primitive status = true ->
  is_string status "LoadingMore" = false ->
  is_string status "LoadingFirstPage" = false ->
  effect_fires prim_eqb h status ->
  exists out1 out2,
    usePaginatedQuerySwr up1 name args h w = Some out1
    /\ usePaginatedQuerySwr up2 name args (committed out1) (world out1) = Some out2
    /\ returned out2
       = VObj (prop_define "loadMore" (VSwrLoadMore key orig2)
                 (own_props (val (up2 name args))))
    /\ world out2 = world out1
    /\ cacheAtom (world out2) !! key = Some (up1 name args).
Proof.
  intros Hkey Ho1 Hs1 Ho2 Hs2 Hprim Hlm Hlfp Hfire.
  unfold usePaginatedQuerySwr, usePaginatedQuerySwr_with,
    usePaginatedQuerySwr_enabled; cbn [negb FEATURE_FLAG_USE_QUERY_SWR].
  rewrite Hkey, Ho1, Hs1, Ho2, Hs2, Hlfp, Hlm.
  eexists _, _. split; [reflexivity|]. cbn [returned world committed commit].
  rewrite (prim_eqb_refl _ Hprim). split; [reflexivity|]. cbn [returned world].
  split; [done|]. split; [done|].
  rewrite (commit_fires _ _ _ _ _ Hfire). cbn [negb andb cacheAtom store_set].
  apply lookup_insert_eq.
Qed.

Lemma usePaginatedQuerySwr_same_status_not_cached_witness :
  exists out1 out2 key,
    usePaginatedQuerySwr (answering first_page) messages_list
      [channel_args "general"; page_options] None initial_world = Some out1
    /\ usePaginatedQuerySwr
         (answering (Obs (page "CanLoadMore" [VNum 0; VNum 1; VNum 2] 9) 5))
         messages_list [channel_args "general"; page_options]
         (committed out1) (world out1) = Some out2
    /\ createQueryKey messages_list (VArr [channel_args "general"; page_options])
       = Some key
    /\ cacheAtom (world out2) !! key = Some first_page.
Proof.
  destruct (usePaginatedQuerySwr_same_status_not_cached
              (answering first_page)
              (answering (Obs (page "CanLoadMore" [VNum 0; VNum 1; VNum 2] 9) 5))
              messages_list [channel_args "general"; page_options] None initial_world
              _ (VNative 9) (VNative 9) (VStr "CanLoadMore")
              eq_refl eq_refl eq_refl eq_refl eq_refl eq_refl eq_refl eq_refl I)
    as (out1 & out2 & E1 & E2 & _ & _ & Hc).
  exists out1, out2. eexists. split; [exact E1|]. split; [exact E2|].
  split; [reflexivity | exact Hc].
Defined.

(** ** What the cache keeps *)

(** X4: no evaluation of a hook removes an entry: a key the cache holds
    before is held after. *)
Theorem evaluation_keeps_entries :
  (forall uq name args h w out k,
      useQuerySwr uq name args h w = Some out ->
      is_Some (cacheAtom w !! k) -> is_Some (cacheAtom (world out) !! k))
  /\ (forall uqs queries h w out k,
        useQueriesSwr uqs queries h w = Some out ->
        is_Some (cacheAtom w !! k) -> is_Some (cacheAtom (world out) !! k))
  /\ (forall up name args h w out k,
        usePaginatedQuerySwr up name args h w = Some out ->
        is_Some (cacheAtom w !! k) -> is_Some (cacheAtom (world out) !! k)).
Proof.
  split; [|split].
  - intros uq name args h w out k E Hk.
    destruct (useQuerySwr_world _ _ _ _ _ _ E) as (key & _ & [-> | [_ ->]]); [done|].
    simpl. rewrite lookup_insert_is_Some. destruct (decide (key = k)); auto.
  - intros uqs queries h w out k E Hk.
    destruct (useQueriesSwr_world _ _ _ _ _ E) as (key & _ & [-> | [_ ->]]); [done|].
    simpl. rewrite lookup_insert_is_Some. destruct (decide (key = k)); auto.
  - intros up name args h w out k E Hk.
    destruct (usePaginatedQuerySwr_world _ _ _ _ _ _ E)
      as (key & _ & [-> | [_ ->]]); [done|].
    simpl. rewrite lookup_insert_is_Some. destruct (decide (key = k)); auto.
Qed.

Lemma evaluation_keeps_entries_witness :
  exists paged out,
    createQueryKey messages_list (VArr [channel_args "general"; page_options])
    = Some paged
    /\ useQuerySwr (answering (Obs (VNum 5) 0)) counters_get [counter_args 2]
         None first_page_world = Some out
    /\ is_Some (cacheAtom (world out) !! paged).
Proof.
  destruct evaluation_keeps_entries as (Hsingle & _).
  eexists _, _. split; [reflexivity|]. split; [reflexivity|].
  eapply (Hsingle (answering (Obs (VNum 5) 0)) counters_get [counter_args 2]
            None first_page_world); [reflexivity|].
  vm_compute. eauto.
Defined.

(** ** Keys of the three hooks *)

(** X13: the keys of the three hooks never meet: a key of [useQuerySwr]
    (at most one argument), a key of [usePaginatedQuerySwr] (arguments and
    options) and a composite key of [useQueriesSwr] are pairwise
    different. *)
Theorem hook_keys_apart q1 l1 q2 a opts queries k1 k2 k3 :
  (length l1 <= 1)%nat ->
  createQueryKey q1 (VArr l1) = Some k1 ->
  createQueryKey q2 (VArr [a; opts]) = Some k2 ->
  queries_key queries = Some k3 ->
  k1 <> k2 /\ k1 <> k3 /\ k2 <> k3.
Proof.
  intros Hlen E1 E2 E3. split; [|split].
  - intros ->. pose proof (createQueryKey_arity _ _ _ _ _ E1 E2) as Hl.
    simpl in Hl. lia.
  - intros ->. by destruct (queries_key_apart _ _ _ _ E3 E1).
  - intros ->. by destruct (queries_key_apart _ _ _ _ E3 E2).
Qed.

Lemma hook_keys_apart_witness :
  exists k1 k2 k3,
    createQueryKey messages_list (VArr [channel_args "general"]) = Some k1
    /\ createQueryKey messages_list (VArr [channel_args "general"; page_options])
       = Some k2
    /\ queries_key (batch_declaration "counter" "messages") = Some k3
    /\ k1 <> k2 /\ k1 <> k3 /\ k2 <> k3.
Proof.
  eexists _, _, _. split; [reflexivity|]. split; [reflexivity|].
  split; [reflexivity|].
  apply (hook_keys_apart messages_list [channel_args "general"] messages_list
           (channel_args "general") page_options
           (batch_declaration "counter" "messages")); reflexivity.
Defined.

(** X14: the key covers the whole rest-argument array: [useQuerySwr]
    called without arguments and with arguments never share a key, and two
    paginated calls whose options encode differently never share one. *)
Theorem key_covers_rest_arguments :
  (forall q a k0 k1,
      createQueryKey q (VArr []) = Some k0 ->
      createQueryKey q (VArr [a]) = Some k1 ->
      k0 <> k1)
  /\ (forall q a opts opts' k k',
        createQueryKey q (VArr [a; opts]) = Some k ->
        createQueryKey q (VArr [a; opts']) = Some k' ->
        convexToJson opts <> convexToJson opts' ->
        k <> k').
Proof.
  split.
  - intros q a k0 k1 E0 E1 ->.
    pose proof (createQueryKey_arity _ _ _ _ _ E0 E1) as Hl. done.
  - intros q a opts opts' k k' E E' Hne ->.
    destruct (createQueryKey_inj _ _ _ _ _ E E') as [_ Henc].
    rewrite !convexToJson_array in Henc. simpl in Henc.
    unfold createQueryKey in E, E'. rewrite convexToJson_array in E, E'.
    simpl in E, E'.
    destruct (convexToJson a) as [ja|]; [|done].
    destruct (convexToJson opts) as [jo|]; [|done].
    destruct (convexToJson opts') as [jo'|]; [|done].
    simpl in Henc. injection Henc as ->. done.
Qed.

Lemma key_covers_rest_arguments_witness :
  exists k k',
    createQueryKey messages_list (VArr [channel_args "general"; page_options])
    = Some k
    /\ createQueryKey messages_list
         (VArr [channel_args "general"; VObj [("initialNumItems", VNum 50)]])
       = Some k'
    /\ k <> k'.
Proof.
  destruct key_covers_rest_arguments as (_ & Hopts).
  eexists _, _. split; [reflexivity|]. split; [reflexivity|].
  apply (Hopts messages_list (channel_args "general") page_options
           (VObj [("initialNumItems", VNum 50)]));
    [reflexivity | reflexivity | discriminate].
Defined.

Lemma queries_key_throws_iff queries :
  queries_key queries = None
  <-> exists e, e ∈ queries /\ createQueryKey (query (snd e)) (args (snd e)) = None.
Proof.
  unfold queries_key. rewrite queries_newMap_per_name.
  unfold newMap_of, per_name_keys.
  generalize (@nil (string * json)).
  induction queries as [|e l IH]; intros acc; simpl.
  - split; [done | by intros (e & He%elem_of_nil & _)].
  - destruct (createQueryKey (query (snd e)) (args (snd e))) as [k|] eqn:Ek.
    + rewrite IH. split.
      * intros (e' & Hin & He'). exists e'. split; [by right | done].
      * intros (e' & [-> | Hin]%elem_of_cons & He'); [congruence|]. by exists e'.
    + rewrite newMap_step_None. simpl. split; [|done].
      intros _. exists e. split; [by left | done].
Qed.

(** X8: a render of [useQueriesSwr] throws exactly when [createQueryKey]
    throws for one of the declared sub-queries. *)
Theorem useQueriesSwr_throws_iff uqs queries h w :
  useQueriesSwr uqs queries h w = None
  <-> exists e, e ∈ queries /\ createQueryKey (query (snd e)) (args (snd e)) = None.
Proof.
  rewrite <- queries_key_throws_iff.
  unfold useQueriesSwr, useQueriesSwr_with, useQueriesSwr_enabled; simpl.
  by destruct (queries_key queries).
Qed.

(** X7: a nullish batch result counts as loading, through
    [result ?? { a: undefined }]: nothing is written, and the hook returns
    the cached entry if it is not nullish, the live result if the key is
    absent. *)
Theorem useQueriesSwr_nullish_result uqs queries h w key :
  queries_key queries = Some key ->
  is_nullish (val (uqs queries)) = true ->
  exists out,
    useQueriesSwr uqs queries h w = Some out
    /\ world out = w
    /\ (cacheAtom w !! key = None -> returned out = uqs queries)
    /\ (forall stale, cacheAtom w !! key = Some stale ->
                      is_nullish (val stale) = false -> returned out = stale).
Proof.
  intros Hkey Hn.
  unfold useQueriesSwr, useQueriesSwr_with, useQueriesSwr_enabled; simpl.
  rewrite Hkey, (batch_isLoading_nullish _ Hn).
  eexists. split; [reflexivity|]. simpl. split.
  - by destruct (commit_cases Object_is h (uqs queries) (fun w' => w') w) as [-> | ->].
  - unfold store_get. split.
    + intros Hc. by rewrite (read_cache_absent _ _ Hc).
    + intros stale Hc Hs. rewrite (read_cache_present _ _ _ Hc). by apply coalesce_kept.
Qed.

Lemma useQueriesSwr_nullish_result_witness :
  exists out,
    useQueriesSwr (answering_batch (Obs VNull 0))
      (batch_declaration "counter" "messages") None loaded_batch_world = Some out
    /\ returned out = loaded_batch
    /\ world out = loaded_batch_world.
Proof.
  destruct (useQueriesSwr_nullish_result (answering_batch (Obs VNull 0))
              (batch_declaration "counter" "messages") None loaded_batch_world
              _ eq_refl eq_refl) as (out & E & Hw & _ & Hstale).
  exists out. split; [exact E|]. split; [|exact Hw].
  apply Hstale; [vm_compute; reflexivity | reflexivity].
Defined.

(** ** [loadMore] *)

(** X12: [loadMore] on a key the cache does not hold, as on a second call
    in a row, still stores a copy of the cache and calls the provider; the
    content of the cache is unchanged. *)
Theorem loadMore_on_absent_key key id count w :
  cacheAtom w !! key = None ->
  exists w',
    call (VSwrLoadMore key (VNative id)) count w = Some w'
    /\ cacheAtom w' = cacheAtom w
    /\ trace w' = trace w ++ [StoreSet (cacheAtom w); NativeCall id count].
Proof.
  intros Hnone. rewrite call_loadMore. eexists. split; [reflexivity|].
  simpl. rewrite (delete_id _ _ Hnone). split; [done|]. by rewrite <- app_assoc.
Qed.

(** [loadMore] called a second time. *)
Lemma loadMore_on_absent_key_witness :
  exists key w1 w2,
    createQueryKey messages_list (VArr [channel_args "general"; page_options])
    = Some key
    /\ call (VSwrLoadMore key (VNative 9)) (VNum 25) first_page_world = Some w1
    /\ call (VSwrLoadMore key (VNative 9)) (VNum 25) w1 = Some w2
    /\ cacheAtom w2 = cacheAtom w1.
Proof.
  eexists _, _. 
  match goal with
  | |- exists w2, _ /\ call (VSwrLoadMore ?key _) _ _ = Some ?w1 /\ _ =>
      destruct (loadMore_on_absent_key key 9%N (VNum 25)
                  (native_call 9 (VNum 25)
                     (store_set (delete key (cacheAtom first_page_world))
                        first_page_world)))
        as (w2 & E & Hc & _); [apply lookup_delete_eq|]
  end.
  exists w2. split; [reflexivity|]. split; [reflexivity|]. split; [exact E | exact Hc].
Defined.

(** ** Write, then read *)

(** X2: a result that is not nullish, written by an evaluation whose
    effect fires, survives an evaluation of [useQuerySwr] under another
    key and is what a later evaluation for the first key returns while its
    live result is [undefined]; that evaluation writes nothing. *)
Theorem useQuerySwr_round_trip
    uq name args h w key uq2 name2 args2 h2 key2 uq3 h3 :
  createQueryKey name (VArr args) = Some key ->
  is_nullish (val (uq name args)) = false ->
  effect_fires Object_is h (uq name args) ->
  createQueryKey name2 (VArr args2) = Some key2 ->
  key2 <> key ->
  val (uq3 name args) = VUndefined ->
  exists out out2 out3,
    useQuerySwr uq name args h w = Some out
    /\ useQuerySwr uq2 name2 args2 h2 (world out) = Some out2
    /\ useQuerySwr uq3 name args h3 (world out2) = Some out3
    /\ returned out3 = uq name args
    /\ world out3 = world out2.
Proof.
  intros Hkey Hnn Hfire Hkey2 Hne Hu.
  assert (val (uq name args) <> VUndefined) as Hdef
    by (intros Hv; by rewrite Hv in Hnn).
  assert (exists out, useQuerySwr uq name args h w = Some out
                      /\ cacheAtom (world out) !! key = Some (uq name args))
    as (out & E & Hc).
  { unfold useQuerySwr, useQuerySwr_with, useQuerySwr_enabled; simpl.
    rewrite Hkey. eexists; split; [reflexivity|]; simpl.
    rewrite (commit_fires _ _ _ _ _ Hfire), (not_undefined _ Hdef); simpl.
    apply lookup_insert_eq. }
  assert (exists out2, useQuerySwr uq2 name2 args2 h2 (world out) = Some out2)
    as (out2 & E2).
  { unfold useQuerySwr, useQuerySwr_with, useQuerySwr_enabled; simpl.
    rewrite Hkey2. eauto. }
  assert (cacheAtom (world out2) !! key = Some (uq name args)) as Hc2.
  { destruct (useQuerySwr_world _ _ _ _ _ _ E2) as (k & Hk & [-> | [_ ->]]); [done|].
    rewrite Hkey2 in Hk. injection Hk as <-. by rewrite store_set_frame. }
  destruct (useQuerySwr_stale uq3 name args h3 (world out2) key (uq name args)
              Hkey Hc2 Hu Hnn) as (out3 & E3 & Hr).
  exists out, out2, out3. repeat split; try assumption.
  by destruct (useQuerySwr_world _ _ _ _ _ _ E3) as (k & _ & [Hw | [Hn _]]).
Qed.

Lemma useQuerySwr_round_trip_witness :
  exists out out2 out3,
    useQuerySwr (answering (Obs (VNum 5) 0)) counters_get [counter_args 1]
      None initial_world = Some out
    /\ useQuerySwr (answering (Obs (VNum 6) 0)) counters_get [counter_args 2]
         None (world out) = Some out2
    /\ useQuerySwr (answering (Obs VUndefined 0)) counters_get [counter_args 1]
         None (world out2) = Some out3
    /\ returned out3 = Obs (VNum 5) 0.
Proof.
  destruct (useQuerySwr_round_trip
              (answering (Obs (VNum 5) 0)) counters_get [counter_args 1] None
              initial_world _
              (answering (Obs (VNum 6) 0)) counters_get [counter_args 2] None _
              (answering (Obs VUndefined 0)) None
              eq_refl eq_refl I eq_refl)
    as (out & out2 & out3 & E & E2 & E3 & Hr & _).
  - apply String.eqb_neq. vm_compute. reflexivity.
  - reflexivity.
  - exists out, out2, out3. repeat split; assumption.
Defined.

(** ** The route *)




